(** * ASLRDetector: slide resolution, address translation and lockstep comparison

    A shallow embedding of [angr/analyses/aslr_detector.py].

    Python integers are unbounded, so addresses and slides are [Z]; the
    bit mask [x & 0xFFF] is [Z.land x 0xFFF] (two's complement on
    negative numbers, as in Python).  The trace is a Python list, read
    by index; an index past the end raises [IndexError].  Python sets
    are [gset]s.  The slide table [_aslr_slides] is a Python dict, whose
    iteration order is insertion order: it is an association list.  The
    loader, its objects and the lifter are external collaborators and
    enter as a record of functions over an abstract type of object
    handles. *)

From stdpp Require Import gmap strings list.
From Equations Require Import Equations.
From Stdlib Require Import ZArith Lia.

Local Open Scope Z_scope.
Set Warnings "-clear-no-such-hyp".

(** ** Python runtime: exceptions, list indexing, dicts *)

(** The exceptions the analysis can raise.  The source raises plain
    [Exception]s told apart by their message; the constructors are named
    after the kind of failure, the message is quoted by each. *)
Inductive Exn (Obj : Type) : Type :=
| IndexError
    (* list index out of range *)
| AttributeError
    (* 'NoneType' object has no attribute 'contains_addr' *)
| AmbiguousOrAbsentTrace (obj : Obj)
    (* "Trace does not seem to contain object initializers for %s. ..." *)
| AmbiguousSlide (obj : Obj)
    (* "Trace seems ambiguous with respect to what the ASLR slides are for %s. ..." *)
| UnresolvedModule
    (* "Internal error: cannot translate address",
       "Internal error: object is untranslated" *)
| NoOwningModule
    (* "Can't figure out which object this address belongs to" *)
| TraceDesyncModule (obj : Obj)
    (* "Trace desynced on jumping into %s. ..." *)
| TraceDesyncUnmapped (state_addr : Z)
    (* "Trace desynced on jumping into %#x, where no library is mapped!" *).

Arguments IndexError {Obj}.
Arguments AttributeError {Obj}.
Arguments AmbiguousOrAbsentTrace {Obj} obj.
Arguments AmbiguousSlide {Obj} obj.
Arguments UnresolvedModule {Obj}.
Arguments NoOwningModule {Obj}.
Arguments TraceDesyncModule {Obj} obj.
Arguments TraceDesyncUnmapped {Obj} state_addr.

(** A computation either returns a value or raises. *)
Inductive Result (Obj A : Type) : Type :=
| Ok (a : A)
| Raise (e : Exn Obj).

Arguments Ok {Obj A} a.
Arguments Raise {Obj A} e.

#[global] Instance result_bind {Obj} : MBind (Result Obj) := λ A B k m,
  match m with
  | Ok a => k a
  | Raise e => Raise e
  end.

(** [l[i]] for an index [i >= 0]. *)
Definition getitem {Obj} (l : list Z) (i : nat) : Result Obj Z :=
  match l !! i with
  | Some x => Ok x
  | None => Raise IndexError
  end.

(** [(x & 0xFFF) == 0] *)
Definition page_aligned (x : Z) : bool := Z.land x 0xFFF =? 0.

Module Dict.
Section dict.
Context {K : Type} `{EqDecision K}.

(** A dict with integer values, in insertion order, keys distinct. *)
Definition t : Type := list (K * Z).

Fixpoint get (d : t) (k : K) : option Z :=
  match d with
  | [] => None
  | (k', v) :: d' => if decide (k' = k) then Some v else get d' k
  end.

(** [d[k] = v]: an existing key keeps its place, a new one goes last. *)
Fixpoint set (d : t) (k : K) (v : Z) : t :=
  match d with
  | [] => [(k, v)]
  | (k', v') :: d' =>
      if decide (k' = k) then (k, v) :: d' else (k', v') :: set d' k v
  end.

End dict.
End Dict.

(** ** The project: loader, loaded objects and lifter *)

(** What the analysis consults of [self.project].  [Obj] is the type of
    handles of loaded objects; an attribute of an object is a function
    of its handle.  A Python reference that may be [None] is an
    [option Obj].  [_custom_base_addr] is consulted for its truth value
    only, which is what the field holds.  [constant_jump_targets a] is
    [project.factory.block(a).vex.constant_jump_targets]. *)
Record Project (Obj : Type) : Type := {
  all_objects : list Obj;
  find_object_containing : Z → option Obj;
  _extern_object : option Obj;
  _kernel_object : option Obj;
  binary_basename : Obj → string;
  pic : Obj → bool;
  _custom_base_addr : Obj → bool;
  initializers : Obj → list Z;
  entry : Obj → Z;
  is_main_bin : Obj → bool;
  contains_addr : Obj → Z → bool;
  constant_jump_targets : Z → gset Z
}.

Arguments all_objects {Obj} _.
Arguments find_object_containing {Obj} _ _.
Arguments _extern_object {Obj} _.
Arguments _kernel_object {Obj} _.
Arguments binary_basename {Obj} _ _.
Arguments pic {Obj} _ _.
Arguments _custom_base_addr {Obj} _ _.
Arguments initializers {Obj} _ _.
Arguments entry {Obj} _ _.
Arguments is_main_bin {Obj} _ _.
Arguments contains_addr {Obj} _ _ _.
Arguments constant_jump_targets {Obj} _ _.

(** ** The analysis *)

Section ASLRDetector.
Context {Obj : Type} `{EqDecision Obj}.
Variable project : Project Obj.
Variable _trace : list Z.

Abbreviation R := (Result Obj).

(** [_filter_idx]: does the step after [idx] agree with the block at
    [angr_addr]?  Both branches read [self._trace[idx + 1]]: the
    generator under [any] reads it for each element of [legal_next],
    which is not empty there. *)
Definition _filter_idx (angr_addr : Z) (idx : nat) : R bool :=
  cur ← getitem _trace idx;
  let slide := cur - angr_addr in
  let legal_next := constant_jump_targets project angr_addr in
  if negb (bool_decide (legal_next = ∅)) then
    nxt ← getitem _trace (idx + 1);
    Ok (existsb (λ a, a + slide =? nxt) (elements legal_next))
  else
    nxt ← getitem _trace (idx + 1);
    Ok (0x1000 <? Z.abs (cur - nxt)).

(** The condition of the [if] in the scanning [for] loop, at index
    [idx] holding [addr].  [prev] is [self._trace[idx - 1]], read only
    when [idx] is not 0, where it exists. *)
Definition selected (angr_addr threshold : Z) (idx : nat) (addr : Z) : bool :=
  page_aligned (addr - angr_addr) &&
  (bool_decide (idx = 0%nat) ||
   match _trace !! (idx - 1)%nat with
   | Some prev => threshold <? Z.abs (prev - addr)
   | None => false
   end).

(** [for idx, addr in enumerate(self._trace): if ...: indices.add(idx)],
    over the part [rest] of the trace that starts at index [idx]. *)
Fixpoint scan_from (angr_addr threshold : Z) (idx : nat) (rest : list Z)
    (indices : gset nat) : gset nat :=
  match rest with
  | [] => indices
  | addr :: rest' =>
      scan_from angr_addr threshold (S idx) rest'
        (if selected angr_addr threshold idx addr
         then {[idx]} ∪ indices else indices)
  end.

Definition scan_pass (angr_addr threshold : Z) (indices : gset nat) : gset nat :=
  scan_from angr_addr threshold 0 _trace indices.

(** [{i for i in indices if self._filter_idx(angr_addr, i)}], over the
    elements of [indices]. *)
Fixpoint filter_indices (angr_addr : Z) (l : list nat) : R (gset nat) :=
  match l with
  | [] => Ok (∅ : gset nat)
  | i :: l' =>
      keep ← _filter_idx angr_addr i;
      rest ← filter_indices angr_addr l';
      Ok (if (keep : bool) then {[i]} ∪ rest else rest)
  end.

(** The condition of the [while]: [not indices and threshold > 0x2000]. *)
Definition loop_guard (indices : gset nat) (threshold : Z) : bool :=
  bool_decide (indices = ∅) && (0x2000 <? threshold).

(** The [while] loop of [_locate_entry_point], entered with the given
    [indices] and [threshold].  The second component is ghost state,
    absent from the source: the thresholds at which a scan pass ran,
    in order. *)
Equations? locate_loop (angr_addr : Z) (indices : gset nat) (threshold : Z)
    : R (gset nat) * list Z by wf (Z.to_nat threshold) lt :=
  locate_loop angr_addr indices threshold
    with Logic.inspect (loop_guard indices threshold) := {
    | exist _ false _ := (Ok indices, []);
    | exist _ true Hguard
        with filter_indices angr_addr
               (elements (scan_pass angr_addr threshold indices)) := {
        | Raise e := (Raise e, [threshold]);
        | Ok indices' :=
            let r := locate_loop angr_addr indices' (threshold / 2) in
            (r.1, threshold :: r.2) } }.
Proof.
  unfold loop_guard in Hguard.
  apply andb_true_iff in Hguard as [_ Hlt%Z.ltb_lt].
  apply Z2Nat.inj_lt; [apply Z.div_pos; lia | lia |].
  apply Z.div_lt; lia.
Qed.

Definition _locate_entry_point_passes (angr_addr : Z) : R (gset nat) * list Z :=
  locate_loop angr_addr ∅ 0x40000.

Definition _locate_entry_point (angr_addr : Z) : R (gset nat) :=
  (_locate_entry_point_passes angr_addr).1.

(** [obj.initializers + ([obj.entry] if obj.is_main_bin else [])] *)
Definition entry_addresses (obj : Obj) : list Z :=
  initializers project obj ++
  (if is_main_bin project obj then [entry project obj] else []).

(** [{self._trace[idx] - entry for idx in indices}], over the elements
    of [indices]. *)
Fixpoint slides_of (entry : Z) (l : list nat) : R (gset Z) :=
  match l with
  | [] => Ok (∅ : gset Z)
  | idx :: l' =>
      addr ← getitem _trace idx;
      rest ← slides_of entry l';
      Ok ({[addr - entry]} ∪ rest)
  end.

(** The [for entry in ...] loop of heuristic 3; [possibilities] is
    [None] until the first entry seeds it. *)
Fixpoint possibilities_loop (entries : list Z) (possibilities : option (gset Z))
    : R (option (gset Z)) :=
  match entries with
  | [] => Ok possibilities
  | entry :: entries' =>
      indices ← _locate_entry_point entry;
      slides ← slides_of entry (elements indices);
      possibilities_loop entries'
        (match possibilities with
         | None => Some slides
         | Some p => Some (p ∩ slides)
         end)
  end.

Abbreviation SlideTable := (Dict.t (K := option Obj)).

(** The body of the [for obj in self.project.loader.all_objects] loop,
    on the slide table [slides].  [len(possibilities)] is the length
    of [elements possibilities]; [next(iter(possibilities))] is its
    only element when that length is 1. *)
Definition resolve_object (slides : SlideTable) (obj : Obj) : R SlideTable :=
  if String.prefix "cle##" (binary_basename project obj) then Ok slides
  else if negb (pic project obj) then Ok (Dict.set slides (Some obj) 0)
  else if _custom_base_addr project obj then Ok (Dict.set slides (Some obj) 0)
  else
    possibilities ← possibilities_loop (entry_addresses obj) None;
    match possibilities with
    | None => Ok slides
    | Some p =>
        match elements p with
        | [] => Raise (AmbiguousOrAbsentTrace obj)
        | [slide] => Ok (Dict.set slides (Some obj) slide)
        | _ => Raise (AmbiguousSlide obj)
        end
    end.

Fixpoint resolve_objects (objs : list Obj) (slides : SlideTable) : R SlideTable :=
  match objs with
  | [] => Ok slides
  | obj :: objs' =>
      slides' ← resolve_object slides obj;
      resolve_objects objs' slides'
  end.

Definition _identify_aslr_slides (slides : SlideTable) : R SlideTable :=
  resolve_objects (all_objects project) slides.

(** [__init__]: the table starts empty and is filled by
    [_identify_aslr_slides]; an exception leaves no analysis. *)
Definition __init__ : R SlideTable := _identify_aslr_slides [].

(** [translate_state_addr], on the slide table [slides]. *)
Definition translate_state_addr (slides : SlideTable) (state_addr : Z)
    (obj : option Obj) : R Z :=
  let obj :=
    match obj with
    | None => find_object_containing project state_addr
    | Some o => Some o
    end in
  match Dict.get slides obj with
  | None => Raise UnresolvedModule
  | Some slide => Ok (state_addr + slide)
  end.

(** The [for obj, slide in self._aslr_slides.items(): ... else: raise]
    of [translate_trace_addr]: the first key in insertion order whose
    [contains_addr] holds.  A key [None] has no [contains_addr]. *)
Fixpoint find_by_slide (items : SlideTable) (trace_addr : Z) : R (option Obj) :=
  match items with
  | [] => Raise NoOwningModule
  | (None, _) :: _ => Raise AttributeError
  | (Some o, slide) :: items' =>
      if contains_addr project o (trace_addr - slide) then Ok (Some o)
      else find_by_slide items' trace_addr
  end.

Definition translate_trace_addr (slides : SlideTable) (trace_addr : Z)
    (obj : option Obj) : R Z :=
  obj ← match obj with
        | None => find_by_slide slides trace_addr
        | Some o => Ok (Some o)
        end;
  match Dict.get slides obj with
  | None => Raise UnresolvedModule
  | Some slide => Ok (trace_addr - slide)
  end.

(** [compare_addr]: the outcome and the slide table after the call. *)
Definition compare_addr (slides : SlideTable) (trace_addr state_addr : Z)
    : R bool * SlideTable :=
  let current_bin := find_object_containing project state_addr in
  if bool_decide (current_bin = _extern_object project)
     || bool_decide (current_bin = _kernel_object project) then
    (Ok false, slides)
  else
    match Dict.get slides current_bin with
    | Some current_slide =>
        (Ok (trace_addr =? state_addr + current_slide), slides)
    | None =>
        if page_aligned (trace_addr - state_addr) then
          (Ok true, Dict.set slides current_bin (trace_addr - state_addr))
        else
          match current_bin with
          | Some o => (Raise (TraceDesyncModule o), slides)
          | None => (Raise (TraceDesyncUnmapped state_addr), slides)
          end
    end.

End ASLRDetector.

(** ** Notions the properties are stated with *)

(** [z] is a candidate slide for [entry]: the search for [entry]
    returns a set of indices, and [z] is [trace[idx] - entry] for one
    of them. *)
Definition candidate_slide {Obj} (project : Project Obj) (trace : list Z)
    (entry z : Z) : Prop :=
  ∃ found idx addr,
    _locate_entry_point project trace entry = Ok found ∧
    idx ∈ found ∧ trace !! idx = Some addr ∧ z = addr - entry.

(** The translation to the trace with the module omitted, as the
    specification words it: the owner is found by scanning the slide
    table for a module that contains the address less the module's
    slide, [NoOwningModule] when there is none, [UnresolvedModule] when
    the owner has no entry.  It is compared with [translate_state_addr]
    below. *)
Definition to_trace_as_specified {Obj} `{EqDecision Obj}
    (project : Project Obj) (slides : Dict.t (K := option Obj))
    (model_address : Z) : Result Obj Z :=
  owner ← find_by_slide project slides model_address;
  match Dict.get slides owner with
  | None => Raise UnresolvedModule
  | Some slide => Ok (model_address + slide)
  end.

(** ** A small project to run the analysis on *)

(** Four objects: the main binary 0, not position independent, at
    0x400000; a position-independent library 1 at 0x600000 with one
    initializer; the extern and kernel pseudo-objects 2 and 3. *)
Definition demo_project : Project nat := {|
  all_objects := [0; 1; 2; 3]%nat;
  find_object_containing := λ a,
    if (0x400000 <=? a) && (a <? 0x500000) then Some 0%nat
    else if (0x600000 <=? a) && (a <? 0x700000) then Some 1%nat
    else None;
  _extern_object := Some 2%nat;
  _kernel_object := Some 3%nat;
  binary_basename := λ o,
    match o with
    | 0%nat => "main"
    | 1%nat => "libdemo.so"
    | 2%nat => "cle##externs"
    | _ => "cle##kernel"
    end%string;
  pic := λ o, match o with 0%nat | 3%nat => false | _ => true end;
  _custom_base_addr := λ _, false;
  initializers := λ o,
    match o with
    | 1%nat => [0x601000]
    | 2%nat => [0x900000]
    | _ => []
    end;
  entry := λ _, 0x400000;
  is_main_bin := λ o, match o with 0%nat => true | _ => false end;
  contains_addr := λ o a,
    match o with
    | 0%nat => (0x400000 <=? a) && (a <? 0x500000)
    | 1%nat => (0x600000 <=? a) && (a <? 0x700000)
    | _ => false
    end;
  constant_jump_targets := λ a,
    if a =? 0x400000 then {[0x400010]} else ∅
|}.

(** A run in which the library is loaded 0x7f0000000000 above its place
    in the model: its initializer runs at index 2 and calls out. *)
Definition demo_trace : list Z :=
  [0x400000; 0x400010; 0x7f0000601000; 0x7f0000700000; 0x7f0000700004].

(** The table [__init__] builds for that run. *)
Definition demo_slides : Dict.t (K := option nat) :=
  [(Some 0%nat, 0); (Some 1%nat, 0x7f0000000000)].

(** The same loader with the library at a custom base address. *)
Definition demo_pinned : Project nat := {|
  all_objects := all_objects demo_project;
  find_object_containing := find_object_containing demo_project;
  _extern_object := _extern_object demo_project;
  _kernel_object := _kernel_object demo_project;
  binary_basename := binary_basename demo_project;
  pic := pic demo_project;
  _custom_base_addr := λ o, match o with 1%nat => true | _ => false end;
  initializers := initializers demo_project;
  entry := entry demo_project;
  is_main_bin := is_main_bin demo_project;
  contains_addr := contains_addr demo_project;
  constant_jump_targets := constant_jump_targets demo_project
|}.



(** The same loader with the extern object mapped at 0x800000 and the
    kernel object at 0x900000, 0x8000 bytes each. *)
Definition demo_externs : Project nat := {|
  all_objects := all_objects demo_project;
  find_object_containing := λ a,
    if (0x400000 <=? a) && (a <? 0x500000) then Some 0%nat
    else if (0x600000 <=? a) && (a <? 0x700000) then Some 1%nat
    else if (0x800000 <=? a) && (a <? 0x808000) then Some 2%nat
    else if (0x900000 <=? a) && (a <? 0x908000) then Some 3%nat
    else None;
  _extern_object := _extern_object demo_project;
  _kernel_object := _kernel_object demo_project;
  binary_basename := binary_basename demo_project;
  pic := pic demo_project;
  _custom_base_addr := _custom_base_addr demo_project;
  initializers := initializers demo_project;
  entry := entry demo_project;
  is_main_bin := is_main_bin demo_project;
  contains_addr := λ o a,
    match o with
    | 0%nat => (0x400000 <=? a) && (a <? 0x500000)
    | 1%nat => (0x600000 <=? a) && (a <? 0x700000)
    | 2%nat => (0x800000 <=? a) && (a <? 0x808000)
    | _ => (0x900000 <=? a) && (a <? 0x908000)
    end;
  constant_jump_targets := constant_jump_targets demo_project
|}.

(** ** Properties *)

Section DictFacts.
Context {K : Type} `{EqDecision K}.

Lemma dict_get_set_eq (d : Dict.t (K := K)) k v :
  Dict.get (Dict.set d k v) k = Some v.
Proof.
  induction d as [|[k' v'] d IH]; simpl.
  - by rewrite decide_True.
  - destruct (decide (k' = k)) as [->|Hne]; simpl.
    + by rewrite decide_True.
    + by rewrite decide_False.
Qed.

Lemma dict_get_set_ne (d : Dict.t (K := K)) k k' v :
  k ≠ k' → Dict.get (Dict.set d k v) k' = Dict.get d k'.
Proof.
  intros Hne. induction d as [|[k0 v0] d IH]; simpl.
  - by rewrite decide_False.
  - destruct (decide (k0 = k)) as [->|Hne0]; simpl.
    + by rewrite !decide_False.
    + destruct (decide (k0 = k')); done.
Qed.

End DictFacts.


Section Properties.
Context {Obj : Type} `{EqDecision Obj}.
Implicit Types (project : Project Obj) (trace : list Z).
Implicit Types (indices : gset nat) (slides : Dict.t (K := option Obj)).

(** *** The search loop, one iteration at a time *)

Lemma locate_loop_step project trace angr_addr indices threshold :
  locate_loop project trace angr_addr indices threshold =
  if loop_guard indices threshold then
    match filter_indices project trace angr_addr
            (elements (scan_pass trace angr_addr threshold indices)) with
    | Raise e => (Raise e, [threshold])
    | Ok indices' =>
        let r := locate_loop project trace angr_addr indices' (threshold / 2) in
        (r.1, threshold :: r.2)
    end
  else (Ok indices, []).
Proof.
  funelim (locate_loop project trace angr_addr indices threshold).
  - by rewrite e.
  - by rewrite Hguard, Heq.
  - by rewrite Hguard, Heq.
Qed.

Lemma loop_guard_empty threshold :
  loop_guard ∅ threshold = (0x2000 <? threshold).
Proof. unfold loop_guard. by rewrite bool_decide_eq_true_2. Qed.

Lemma loop_guard_true indices threshold :
  loop_guard indices threshold = true ↔ indices = ∅ ∧ 0x2000 < threshold.
Proof.
  unfold loop_guard.
  by rewrite andb_true_iff, bool_decide_eq_true, Z.ltb_lt.
Qed.

(** *** The scan pass *)

Lemma page_aligned_mod x : page_aligned x = true ↔ x mod 4096 = 0.
Proof.
  unfold page_aligned. rewrite Z.eqb_eq.
  change 0xFFF with (Z.ones 12). by rewrite Z.land_ones.
Qed.

Lemma selected_true trace angr_addr threshold idx addr :
  selected trace angr_addr threshold idx addr = true ↔
  (addr - angr_addr) mod 4096 = 0 ∧
  (idx = 0%nat ∨
   ∃ prev, trace !! (idx - 1)%nat = Some prev ∧ threshold < Z.abs (prev - addr)).
Proof.
  unfold selected.
  rewrite andb_true_iff, orb_true_iff, page_aligned_mod, bool_decide_eq_true.
  destruct (trace !! (idx - 1)%nat) as [prev|]; [rewrite Z.ltb_lt|];
    naive_solver.
Qed.

Lemma elem_of_scan_from trace angr_addr threshold idx rest indices j :
  j ∈ scan_from trace angr_addr threshold idx rest indices ↔
  j ∈ indices ∨
  ∃ addr, (idx ≤ j)%nat ∧ rest !! (j - idx)%nat = Some addr ∧
          selected trace angr_addr threshold j addr = true.
Proof.
  revert idx indices.
  induction rest as [|a rest IH]; intros idx indices; simpl.
  - split; [by left|]. intros [?|(addr & _ & Hl & _)]; [done|].
    by rewrite lookup_nil in Hl.
  - rewrite IH. split.
    + intros [Hj|(addr & Hle & Hl & Hsel)].
      * destruct (selected trace angr_addr threshold idx a) eqn:Hs;
          [|by left].
        apply elem_of_union in Hj as [->%elem_of_singleton|?]; [|by left].
        right. exists a. by rewrite Nat.sub_diag.
      * right. exists addr. split; [lia|]. split; [|done].
        replace (j - idx)%nat with (S (j - S idx)) by lia. done.
    + intros [Hj|(addr & Hle & Hl & Hsel)].
      * left. destruct (selected trace angr_addr threshold idx a);
          set_solver.
      * destruct (decide (j = idx)) as [->|Hne].
        -- rewrite Nat.sub_diag in Hl. simplify_eq/=.
           left. rewrite Hsel. set_solver.
        -- right. exists addr. split; [lia|]. split; [|done].
           replace (j - idx)%nat with (S (j - S idx)) in Hl by lia. done.
Qed.

Lemma elem_of_scan_pass trace angr_addr threshold indices j :
  j ∈ scan_pass trace angr_addr threshold indices ↔
  j ∈ indices ∨
  ∃ addr, trace !! j = Some addr ∧
          selected trace angr_addr threshold j addr = true.
Proof.
  unfold scan_pass. rewrite elem_of_scan_from, Nat.sub_0_r.
  split; (intros [?|(addr & ?)]; [by left|right; exists addr]);
    [naive_solver|]. split; [lia|done].
Qed.

Lemma scan_pass_selected trace angr_addr threshold i :
  i ∈ scan_pass trace angr_addr threshold ∅ ↔
  ∃ addr, trace !! i = Some addr ∧
          selected trace angr_addr threshold i addr = true.
Proof. rewrite elem_of_scan_pass. set_solver. Qed.

(** C3. A scan pass, started as the loop starts it with no index
    collected, gathers exactly the indices [i] of the trace with
    [(trace[i] - entry_address)] a multiple of 4096 and ([i == 0] or
    [|trace[i-1] - trace[i]| > threshold]): every such index is in
    the result and no other is. *)
Theorem scan_pass_exact trace (entry_address threshold : Z) (i : nat) :
  i ∈ scan_pass trace entry_address threshold ∅ ↔
  ∃ addr, trace !! i = Some addr ∧
          (addr - entry_address) mod 4096 = 0 ∧
          (i = 0%nat ∨
           ∃ prev, trace !! (i - 1)%nat = Some prev ∧
                   threshold < Z.abs (prev - addr)).
Proof.
  rewrite scan_pass_selected. by setoid_rewrite selected_true.
Qed.

(** A pass only runs under the loop guard, hence on the empty set. *)
Lemma loop_guard_scan_pass trace angr_addr threshold indices :
  loop_guard indices threshold = true →
  scan_pass trace angr_addr threshold indices =
  scan_pass trace angr_addr threshold ∅.
Proof. by intros [-> _]%loop_guard_true. Qed.

Lemma scan_pass_lt trace angr_addr threshold i :
  i ∈ scan_pass trace angr_addr threshold ∅ → (i < length trace)%nat.
Proof.
  intros (addr & Hl & _)%scan_pass_selected. by eapply lookup_lt_Some.
Qed.

(** *** The validator *)

Lemma getitem_Ok trace i x :
  getitem (Obj := Obj) trace i = Ok x ↔ trace !! i = Some x.
Proof. unfold getitem. destruct (trace !! i); naive_solver. Qed.

Lemma getitem_Raise trace i e :
  getitem (Obj := Obj) trace i = Raise e ↔
  e = IndexError ∧ (length trace ≤ i)%nat.
Proof.
  unfold getitem. destruct (trace !! i) eqn:Hl.
  - apply lookup_lt_Some in Hl. split; [done|lia].
  - apply lookup_ge_None in Hl. naive_solver.
Qed.

(** What [_filter_idx] computes where both reads are in range. *)
Lemma filter_idx_in_range project trace angr_addr idx cur nxt :
  trace !! idx = Some cur → trace !! (idx + 1)%nat = Some nxt →
  _filter_idx project trace angr_addr idx =
  Ok (if decide (constant_jump_targets project angr_addr = ∅)
      then 0x1000 <? Z.abs (cur - nxt)
      else existsb (λ a, a + (cur - angr_addr) =? nxt)
             (elements (constant_jump_targets project angr_addr))).
Proof.
  intros Hcur Hnxt. unfold _filter_idx, getitem.
  rewrite Hcur, Hnxt. simpl. unfold mbind, result_bind.
  case_decide as Hempty.
  - by rewrite bool_decide_eq_true_2.
  - by rewrite bool_decide_eq_false_2.
Qed.

(** Where a read is out of range it raises [IndexError]. *)
Lemma filter_idx_out_of_range project trace angr_addr idx :
  (length trace ≤ idx + 1)%nat →
  _filter_idx project trace angr_addr idx = Raise IndexError.
Proof.
  intros Hlen. unfold _filter_idx, getitem.
  destruct (trace !! idx) as [cur|]; [|done].
  rewrite (proj2 (lookup_ge_None trace (idx + 1)%nat)) by done.
  simpl. unfold mbind, result_bind.
  by destruct (negb _).
Qed.

Lemma existsb_targets (targets : gset Z) (slide nxt : Z) :
  existsb (λ a, a + slide =? nxt) (elements targets) = true ↔
  ∃ t, t ∈ targets ∧ t + slide = nxt.
Proof.
  rewrite existsb_exists. setoid_rewrite Z.eqb_eq.
  setoid_rewrite <- list_elem_of_In. setoid_rewrite elem_of_elements.
  done.
Qed.

Lemma trace_next_cases trace idx :
  (∃ cur nxt, trace !! idx = Some cur ∧ trace !! (idx + 1)%nat = Some nxt) ∨
  (length trace ≤ idx + 1)%nat.
Proof.
  destruct (trace !! (idx + 1)%nat) as [nxt|] eqn:Hnxt.
  - left. destruct (lookup_lt_is_Some_2 trace idx) as [cur Hcur].
    { apply lookup_lt_Some in Hnxt. lia. }
    by exists cur, nxt.
  - right. by apply lookup_ge_None.
Qed.

(** C4. With [slide = trace[idx] - angr_address]: when the lifter
    gives a non-empty set of direct successors for the block at
    [angr_address], validation returns true exactly when some
    successor [t] has [t + slide = trace[idx+1]]; when it gives none,
    validation returns true exactly when
    [|trace[idx] - trace[idx+1]| > 0x1000].  Where [trace[idx+1]]
    exists validation returns a boolean, so it returns false in all
    other cases there. *)
Theorem filter_idx_spec project trace (angr_address : Z) (idx : nat) :
  let targets := constant_jump_targets project angr_address in
  (targets ≠ ∅ →
   _filter_idx project trace angr_address idx = Ok true ↔
   ∃ cur nxt t, trace !! idx = Some cur ∧ trace !! (idx + 1)%nat = Some nxt ∧
                t ∈ targets ∧ t + (cur - angr_address) = nxt) ∧
  (targets = ∅ →
   _filter_idx project trace angr_address idx = Ok true ↔
   ∃ cur nxt, trace !! idx = Some cur ∧ trace !! (idx + 1)%nat = Some nxt ∧
              0x1000 < Z.abs (cur - nxt)) ∧
  ((idx + 1 < length trace)%nat →
   ∃ b, _filter_idx project trace angr_address idx = Ok b).
Proof.
  intros targets.
  destruct (trace_next_cases trace idx)
    as [(cur & nxt & Hcur & Hnxt)|Hout].
  - rewrite (filter_idx_in_range _ _ _ _ _ _ Hcur Hnxt).
    fold targets. split; [|split].
    + intros Hne. rewrite decide_False by done. split.
      * intros [= (t & ? & ?)%existsb_targets]. by exists cur, nxt, t.
      * intros (cur' & nxt' & t & ? & ? & ? & ?).
        assert (cur' = cur) as -> by congruence.
        assert (nxt' = nxt) as -> by congruence.
        f_equal. apply existsb_targets. by exists t.
    + intros He. rewrite decide_True by done. split.
      * intros [= ?%Z.ltb_lt]. by exists cur, nxt.
      * intros (cur' & nxt' & ? & ? & ?).
        assert (cur' = cur) as -> by congruence.
        assert (nxt' = nxt) as -> by congruence.
        f_equal. by apply Z.ltb_lt.
    + intros _. by eexists.
  - rewrite (filter_idx_out_of_range _ _ _ _ Hout).
    apply lookup_ge_None in Hout.
    split; [|split].
    + intros _. split; [done|]. intros (? & ? & ? & ? & ? & _). congruence.
    + intros _. split; [done|]. intros (? & ? & ? & ? & _). congruence.
    + intros Hlt. apply lookup_ge_None in Hout. lia.
Qed.

(** *** Filtering a scan *)

Lemma filter_idx_Raise project trace angr_addr idx e :
  _filter_idx project trace angr_addr idx = Raise e → e = IndexError.
Proof.
  destruct (trace_next_cases trace idx)
    as [(cur & nxt & Hcur & Hnxt)|Hout].
  - by rewrite (filter_idx_in_range _ _ _ _ _ _ Hcur Hnxt).
  - rewrite (filter_idx_out_of_range _ _ _ _ Hout). congruence.
Qed.

Lemma filter_indices_in_range project trace angr_addr (l : list nat) :
  (∀ i, i ∈ l → (i + 1 < length trace)%nat) →
  ∃ kept, filter_indices project trace angr_addr l = Ok kept ∧
          ∀ i, i ∈ kept ↔
               i ∈ l ∧ _filter_idx project trace angr_addr i = Ok true.
Proof.
  induction l as [|j l IH]; intros Hall; simpl.
  - exists ∅. set_solver.
  - destruct IH as (rest & -> & Hrest); [intros i ?; apply Hall; by right|].
    destruct (trace_next_cases trace j) as [(cur & nxt & Hcur & Hnxt)|Hout].
    2: { assert (j + 1 < length trace)%nat; [apply Hall; by left|lia]. }
    pose proof (filter_idx_in_range project _ angr_addr _ _ _ Hcur Hnxt) as Hj.
    destruct (_filter_idx project trace angr_addr j) as [b|] eqn:Hfj; [|done].
    clear Hj. cbn.
    eexists. split; [done|]. intros i. rewrite elem_of_cons.
    destruct b.
    + rewrite elem_of_union, elem_of_singleton, Hrest. naive_solver.
    + rewrite Hrest. split; [intros [? ?]; auto|].
      intros [[->|?] Hf]; [congruence|done].
Qed.

Lemma filter_indices_out_of_range project trace angr_addr (l : list nat) i :
  i ∈ l → (length trace ≤ i + 1)%nat →
  filter_indices project trace angr_addr l = Raise IndexError.
Proof.
  intros Hi Hout. induction l as [|j l IH]; [by apply elem_of_nil in Hi|].
  simpl.
  destruct (_filter_idx project trace angr_addr j) as [b|e] eqn:Hj.
  - unfold mbind at 1, result_bind at 1.
    apply elem_of_cons in Hi as [->|Hi].
    + by rewrite filter_idx_out_of_range in Hj.
    + by rewrite IH.
  - by apply filter_idx_Raise in Hj as ->.
Qed.

Lemma filter_indices_Ok project trace angr_addr (l : list nat) kept :
  filter_indices project trace angr_addr l = Ok kept ↔
  (∀ i, i ∈ l → (i + 1 < length trace)%nat) ∧
  (∀ i, i ∈ kept ↔ i ∈ l ∧ _filter_idx project trace angr_addr i = Ok true).
Proof.
  split.
  - intros Hok.
    assert (∀ i, i ∈ l → (i + 1 < length trace)%nat) as Hall.
    { intros i Hi. destruct (decide (i + 1 < length trace)%nat); [done|].
      rewrite (filter_indices_out_of_range _ _ _ _ i) in Hok; [done..|lia]. }
    split; [done|].
    destruct (filter_indices_in_range project trace angr_addr l Hall)
      as (kept' & Hk & ?). by rewrite Hok in Hk; injection Hk as <-.
  - intros [Hall Hk].
    destruct (filter_indices_in_range project trace angr_addr l Hall)
      as (kept' & -> & Hk').
    f_equal. apply leibniz_equiv. intros i. by rewrite Hk, Hk'.
Qed.

Lemma filter_indices_Raise project trace angr_addr (l : list nat) e :
  filter_indices project trace angr_addr l = Raise e ↔
  e = IndexError ∧ ∃ i, i ∈ l ∧ (length trace ≤ i + 1)%nat.
Proof.
  split.
  - intros Hr.
    destruct (decide (Forall (λ i, i + 1 < length trace)%nat l)) as [Hall|Hex].
    + rewrite Forall_forall in Hall.
      destruct (filter_indices_in_range project trace angr_addr l Hall)
        as (? & ? & _). congruence.
    + apply not_Forall_Exists in Hex; [|apply _].
      apply Exists_exists in Hex as (i & Hi & Hout). simpl in Hout.
      rewrite (filter_indices_out_of_range _ _ _ _ i) in Hr; [|done|lia].
      split; [congruence|]. exists i. split; [done|lia].
  - intros (-> & i & Hi & Hout). by eapply filter_indices_out_of_range.
Qed.

(** *** The adaptive search *)

Lemma locate_loop_stop project trace angr_addr indices threshold :
  indices ≠ ∅ ∨ threshold ≤ 0x2000 →
  locate_loop project trace angr_addr indices threshold = (Ok indices, []).
Proof.
  intros Hstop. rewrite locate_loop_step.
  destruct (loop_guard indices threshold) eqn:Hg; [|done].
  apply loop_guard_true in Hg as [? ?]. destruct Hstop; [done|lia].
Qed.

Lemma locate_loop_pass project trace angr_addr threshold :
  0x2000 < threshold →
  locate_loop project trace angr_addr ∅ threshold =
  match filter_indices project trace angr_addr
          (elements (scan_pass trace angr_addr threshold ∅)) with
  | Raise e => (Raise e, [threshold])
  | Ok indices' =>
      let r := locate_loop project trace angr_addr indices' (threshold / 2) in
      (r.1, threshold :: r.2)
  end.
Proof.
  intros Hlt. rewrite locate_loop_step, loop_guard_empty.
  by rewrite (proj2 (Z.ltb_lt _ _) Hlt).
Qed.

Local Ltac passes_leaf Hf :=
  cbn [fst snd length];
  split; [by eexists|];
  split; [lia|];
  split;
  [ intros k th Hk;
    repeat (destruct k as [|k];
            [ cbn in Hk; injection Hk as <-; rewrite Hf;
              case_decide; (assumption || lia)
            | ]);
    done
  | split; [|done]; intros Hlt; (congruence || (exfalso; cbn in Hlt; lia)) ].

(** C2. The adaptive search always ends, after one to five scan
    passes: the passes run at thresholds 0x40000, 0x20000, 0x10000,
    0x8000, 0x4000 in this order (the threshold starts at 0x40000 and
    is halved after each pass); every pass before the last one
    filtered to the empty set, the last pass yields the outcome of the
    search; and the search stops before the fifth pass only once the
    filtered set is not empty (or the validator raised). *)
Theorem locate_entry_point_five_passes project trace (entry_address : Z) :
  let run := _locate_entry_point_passes project trace entry_address in
  let filtered threshold :=
    filter_indices project trace entry_address
      (elements (scan_pass trace entry_address threshold ∅)) in
  run.2 `prefix_of` [0x40000; 0x20000; 0x10000; 0x8000; 0x4000] ∧
  (1 ≤ length run.2 ≤ 5)%nat ∧
  (∀ k threshold, run.2 !! k = Some threshold →
     filtered threshold =
     if decide (S k = length run.2) then run.1 else Ok ∅) ∧
  ((length run.2 < 5)%nat → run.1 ≠ Ok ∅) ∧
  _locate_entry_point project trace entry_address = run.1.
Proof.
  intros run filtered. unfold _locate_entry_point. fold run.
  unfold run, _locate_entry_point_passes.
  assert (∀ th, filtered th =
            filter_indices project trace entry_address
              (elements (scan_pass trace entry_address th ∅))) as Hf by done.
  clearbody filtered.
  rewrite locate_loop_pass by lia.
  destruct (filter_indices _ _ _ (elements (scan_pass _ _ 0x40000 ∅)))
    as [i1|e1] eqn:H1; [|passes_leaf Hf].
  destruct (decide (i1 = ∅)) as [->|Hne1];
    [|rewrite locate_loop_stop by (by left); passes_leaf Hf].
  change (0x40000 / 2) with 0x20000. rewrite locate_loop_pass by lia.
  destruct (filter_indices _ _ _ (elements (scan_pass _ _ 0x20000 ∅)))
    as [i2|e2] eqn:H2; [|passes_leaf Hf].
  destruct (decide (i2 = ∅)) as [->|Hne2];
    [|rewrite locate_loop_stop by (by left); passes_leaf Hf].
  change (0x20000 / 2) with 0x10000. rewrite locate_loop_pass by lia.
  destruct (filter_indices _ _ _ (elements (scan_pass _ _ 0x10000 ∅)))
    as [i3|e3] eqn:H3; [|passes_leaf Hf].
  destruct (decide (i3 = ∅)) as [->|Hne3];
    [|rewrite locate_loop_stop by (by left); passes_leaf Hf].
  change (0x10000 / 2) with 0x8000. rewrite locate_loop_pass by lia.
  destruct (filter_indices _ _ _ (elements (scan_pass _ _ 0x8000 ∅)))
    as [i4|e4] eqn:H4; [|passes_leaf Hf].
  destruct (decide (i4 = ∅)) as [->|Hne4];
    [|rewrite locate_loop_stop by (by left); passes_leaf Hf].
  change (0x8000 / 2) with 0x4000. rewrite locate_loop_pass by lia.
  destruct (filter_indices _ _ _ (elements (scan_pass _ _ 0x4000 ∅)))
    as [i5|e5] eqn:H5; [|passes_leaf Hf].
  change (0x4000 / 2) with 0x2000.
  rewrite locate_loop_stop by (right; lia). passes_leaf Hf.
Qed.

Lemma locate_entry_point_first_pass project trace angr_addr e :
  filter_indices project trace angr_addr
    (elements (scan_pass trace angr_addr 0x40000 ∅)) = Raise e →
  _locate_entry_point project trace angr_addr = Raise e.
Proof.
  intros Hr. unfold _locate_entry_point, _locate_entry_point_passes.
  rewrite locate_loop_pass by lia. by rewrite Hr.
Qed.

(** The scanner decides on an index from the trace up to that index. *)
Lemma scan_pass_take trace trace' angr_addr threshold i :
  take (S i) trace' = take (S i) trace →
  i ∈ scan_pass trace' angr_addr threshold ∅ ↔
  i ∈ scan_pass trace angr_addr threshold ∅.
Proof.
  intros Htake. rewrite !scan_pass_selected. unfold selected.
  assert (∀ j, (j ≤ i)%nat → trace' !! j = trace !! j) as Hsame.
  { intros j Hj. rewrite <- (lookup_take_lt trace' (S i)) by lia.
    rewrite Htake. apply lookup_take_lt. lia. }
  rewrite (Hsame i), (Hsame (i - 1)%nat) by lia. done.
Qed.

(** C9. Validation of [idx] reads [trace[idx + 1]] on every path: it
    returns a value exactly when [idx < len(trace) - 1] and raises
    [IndexError] otherwise.  The scanner selects an index [i] by
    looking at the trace up to [i] only, never at [trace[i + 1]], so
    it can select the last index; when it does, filtering the scan
    raises [IndexError], and so does the whole search when this
    happens in its first pass.  For every entry address there are such
    traces, the one-element trace holding that address among them. *)
Theorem filter_idx_reads_next project trace (angr_addr : Z) :
  (∀ idx, (∃ b, _filter_idx project trace angr_addr idx = Ok b) ↔
          Z.of_nat idx < Z.of_nat (length trace) - 1) ∧
  (∀ idx, ¬ Z.of_nat idx < Z.of_nat (length trace) - 1 →
          _filter_idx project trace angr_addr idx = Raise IndexError) ∧
  (∀ trace' threshold i,
     take (S i) trace' = take (S i) trace →
     i ∈ scan_pass trace' angr_addr threshold ∅ ↔
     i ∈ scan_pass trace angr_addr threshold ∅) ∧
  (∀ threshold last,
     S last = length trace →
     last ∈ scan_pass trace angr_addr threshold ∅ →
     filter_indices project trace angr_addr
       (elements (scan_pass trace angr_addr threshold ∅)) = Raise IndexError) ∧
  (∀ last,
     S last = length trace →
     last ∈ scan_pass trace angr_addr 0x40000 ∅ →
     _locate_entry_point project trace angr_addr = Raise IndexError) ∧
  (∀ threshold, 0%nat ∈ scan_pass [angr_addr] angr_addr threshold ∅) ∧
  _locate_entry_point project [angr_addr] angr_addr = Raise IndexError.
Proof.
  assert (∀ tr threshold last,
            S last = length tr →
            last ∈ scan_pass tr angr_addr threshold ∅ →
            filter_indices project tr angr_addr
              (elements (scan_pass tr angr_addr threshold ∅))
            = Raise IndexError) as Hlast.
  { intros tr threshold last Hlen Hin.
    apply (filter_indices_out_of_range _ _ _ _ last); [|lia].
    by apply elem_of_elements. }
  assert (∀ threshold, 0%nat ∈ scan_pass [angr_addr] angr_addr threshold ∅)
    as Hone.
  { intros threshold. apply scan_pass_selected. exists angr_addr.
    split; [done|]. apply selected_true. rewrite Z.sub_diag.
    split; [done|by left]. }
  split; [|split; [|split; [|split; [|split; [|split]]]]].
  - intros idx. split.
    + intros [b Hb].
      destruct (decide (length trace ≤ idx + 1)%nat) as [Hout|]; [|lia].
      by rewrite filter_idx_out_of_range in Hb.
    + intros Hlt.
      destruct (trace_next_cases trace idx)
        as [(cur & nxt & Hcur & Hnxt)|Hout]; [|lia].
      rewrite (filter_idx_in_range _ _ _ _ _ _ Hcur Hnxt). by eexists.
  - intros idx Hge. apply filter_idx_out_of_range. lia.
  - intros trace' threshold i. apply scan_pass_take.
  - apply Hlast.
  - intros last Hlen Hin. apply locate_entry_point_first_pass.
    by apply (Hlast _ _ last).
  - done.
  - apply locate_entry_point_first_pass. by apply (Hlast _ _ 0%nat).
Qed.

(** The indices a search returns passed the validator, so they and
    their successors are within the trace. *)
Lemma locate_loop_in_range project trace angr_addr indices threshold :
  (∀ i, i ∈ indices → (i + 1 < length trace)%nat) →
  ∀ found, (locate_loop project trace angr_addr indices threshold).1 = Ok found →
  ∀ i, i ∈ found → (i + 1 < length trace)%nat.
Proof.
  funelim (locate_loop project trace angr_addr indices threshold);
    intros Hin found Hfound.
  - by injection Hfound as <-.
  - simpl in Hfound. apply filter_indices_Ok in Heq as [Hrange Hkept].
    eapply H; [|done]. intros i [Hi _]%Hkept. by apply Hrange.
  - done.
Qed.

Lemma locate_entry_point_in_range project trace angr_addr found i :
  _locate_entry_point project trace angr_addr = Ok found →
  i ∈ found → (i + 1 < length trace)%nat.
Proof.
  intros Hfound. eapply locate_loop_in_range; [|done]. set_solver.
Qed.

Lemma locate_loop_Raise project trace angr_addr indices threshold e :
  (locate_loop project trace angr_addr indices threshold).1 = Raise e →
  e = IndexError.
Proof.
  funelim (locate_loop project trace angr_addr indices threshold);
    intros Hr; simpl in Hr.
  - done.
  - by apply H.
  - injection Hr as <-. by apply filter_indices_Raise in Heq as [-> _].
Qed.

(** *** Slide resolution *)

Lemma slides_of_in_range trace entry (l : list nat) :
  (∀ i, i ∈ l → (i < length trace)%nat) →
  ∃ found : gset Z,
    slides_of (Obj := Obj) trace entry l = Ok found ∧
    ∀ z, z ∈ found ↔ ∃ idx addr, idx ∈ l ∧ trace !! idx = Some addr ∧
                                 z = addr - entry.
Proof.
  induction l as [|j l IH]; intros Hall; simpl.
  - exists ∅. split; [done|]. intros z. split; [set_solver|].
    intros (idx & ? & []%elem_of_nil & _).
  - destruct IH as (rest & -> & Hrest); [intros i ?; apply Hall; by right|].
    destruct (lookup_lt_is_Some_2 trace j) as [addr Hj];
      [apply Hall; by left|].
    unfold getitem. rewrite Hj. cbn.
    eexists. split; [done|]. intros z.
    rewrite elem_of_union, elem_of_singleton, Hrest. split.
    + intros [->|(idx & a & ? & ? & ?)].
      * exists j, addr. split; [by left|done].
      * exists idx, a. split; [by right|done].
    + intros (idx & a & [->|?]%elem_of_cons & Ha & ->).
      * left. congruence.
      * right. by exists idx, a.
Qed.

(** The two statements of the loop body, for an entry whose search
    returns. *)
Lemma entry_slides project trace entry found :
  _locate_entry_point project trace entry = Ok found →
  ∃ cands : gset Z,
    slides_of (Obj := Obj) trace entry (elements found) = Ok cands ∧
    ∀ z, z ∈ cands ↔ candidate_slide project trace entry z.
Proof.
  intros Hfound.
  destruct (slides_of_in_range trace entry (elements found))
    as (cands & Hs & Hc).
  { intros i Hi%elem_of_elements.
    pose proof (locate_entry_point_in_range _ _ _ _ i Hfound Hi). lia. }
  exists cands. split; [done|]. intros z. rewrite Hc.
  unfold candidate_slide. setoid_rewrite elem_of_elements. split.
  - intros (idx & addr & ? & ? & ?). by exists found, idx, addr.
  - intros (found' & idx & addr & Hf' & ? & ? & ?).
    assert (found' = found) as -> by congruence. by exists idx, addr.
Qed.

Lemma possibilities_loop_narrow project trace entries (p : gset Z) :
  (∀ entry, entry ∈ entries →
     ∃ found, _locate_entry_point project trace entry = Ok found) →
  ∃ p' : gset Z,
    possibilities_loop project trace entries (Some p) = Ok (Some p') ∧
    ∀ z, z ∈ p' ↔
         z ∈ p ∧ ∀ entry, entry ∈ entries →
                          candidate_slide project trace entry z.
Proof.
  revert p. induction entries as [|entry entries IH]; intros p Hall; simpl.
  - exists p. split; [done|]. set_solver.
  - destruct (Hall entry) as [found Hfound]; [by left|].
    destruct (entry_slides _ _ _ _ Hfound) as (cands & Hs & Hc).
    rewrite Hfound. cbn. rewrite Hs. cbn.
    destruct (IH (p ∩ cands)) as (p' & -> & Hp');
      [intros e ?; apply Hall; by right|].
    exists p'. split; [done|]. intros z.
    rewrite Hp', elem_of_intersection, Hc. split.
    + intros [[? ?] Hrest]. split; [done|].
      intros e [->|?]%elem_of_cons; auto.
    + intros [? Hrest]. split; [split|]; [done| |].
      * apply Hrest. by left.
      * intros e ?. apply Hrest. by right.
Qed.

(** From the unseeded accumulator: the first entry seeds it, the
    others narrow it. *)
Lemma possibilities_loop_seed project trace entry entries :
  (∀ e, e ∈ entry :: entries →
     ∃ found, _locate_entry_point project trace e = Ok found) →
  ∃ p : gset Z,
    possibilities_loop project trace (entry :: entries) None = Ok (Some p) ∧
    ∀ z, z ∈ p ↔ ∀ e, e ∈ entry :: entries →
                      candidate_slide project trace e z.
Proof.
  intros Hall. simpl.
  destruct (Hall entry) as [found Hfound]; [by left|].
  destruct (entry_slides _ _ _ _ Hfound) as (cands & Hs & Hc).
  rewrite Hfound. cbn. rewrite Hs. cbn.
  destruct (possibilities_loop_narrow project trace entries cands)
    as (p & -> & Hp); [intros e ?; apply Hall; by right|].
  exists p. split; [done|]. intros z. rewrite Hp, Hc. split.
  - intros [? Hrest] e [->|?]%elem_of_cons; auto.
  - intros Hz. split; [apply Hz; by left|].
    intros e ?. apply Hz. by right.
Qed.

(** C1 (amended).  For a module that is not a loader pseudo-object
    (its basename does not start with [cle##]), is position
    independent, has no custom base address, has at least one entry
    address and whose entry addresses are all searched to completion:
    the accumulated [possibilities] are exactly the slides that are
    candidates for every entry address (the intersection of the
    per-entry candidate sets); resolution raises
    [AmbiguousOrAbsentTrace] when they are empty, records the slide
    when there is exactly one, and raises [AmbiguousSlide] when there
    are several. *)
Theorem resolve_object_searched project trace slides (obj : Obj) :
  String.prefix "cle##" (binary_basename project obj) = false →
  pic project obj = true →
  _custom_base_addr project obj = false →
  entry_addresses project obj ≠ [] →
  (∀ entry, entry ∈ entry_addresses project obj →
     ∃ found, _locate_entry_point project trace entry = Ok found) →
  ∃ possibilities : gset Z,
    (∀ z, z ∈ possibilities ↔
          ∀ entry, entry ∈ entry_addresses project obj →
                   candidate_slide project trace entry z) ∧
    (possibilities = ∅ →
     resolve_object project trace slides obj =
     Raise (AmbiguousOrAbsentTrace obj)) ∧
    (∀ slide, possibilities = {[slide]} →
     resolve_object project trace slides obj =
     Ok (Dict.set slides (Some obj) slide)) ∧
    ((1 < size possibilities)%nat →
     resolve_object project trace slides obj =
     Raise (AmbiguousSlide obj)).
Proof.
  intros Hname Hpic Hbase Hentries Hsearch.
  unfold resolve_object. rewrite Hname, Hpic, Hbase. simpl.
  destruct (entry_addresses project obj) as [|entry entries]; [done|].
  destruct (possibilities_loop_seed _ _ _ _ Hsearch) as (p & -> & Hp).
  exists p. cbn. split; [done|]. split; [|split].
  - intros ->. by rewrite elements_empty.
  - intros slide ->. by rewrite elements_singleton.
  - unfold size, set_size. simpl.
    destruct (elements p) as [|a [|b l]]; simpl; [lia..|done].
Qed.

(** The outcomes of resolving one object: the table is left as it was,
    or gets an entry for that object. *)
Lemma resolve_object_Ok project trace slides (obj : Obj) slides' :
  resolve_object project trace slides obj = Ok slides' →
  slides' = slides ∨ ∃ slide, slides' = Dict.set slides (Some obj) slide.
Proof.
  unfold resolve_object.
  repeat match goal with |- context [if ?b then _ else _] => destruct b end;
    try (intros [= <-]; by eauto).
  destruct (possibilities_loop _ _ _ _) as [[p|]|]; cbn;
    [|intros [= <-]; by eauto|done].
  destruct (elements p) as [|a [|b l]]; [done| |done].
  intros [= <-]. by eauto.
Qed.

Lemma resolve_object_other project trace slides (obj : Obj) slides' key :
  resolve_object project trace slides obj = Ok slides' →
  key ≠ Some obj →
  Dict.get slides' key = Dict.get slides key.
Proof.
  intros [->|[slide ->]]%resolve_object_Ok Hne; [done|].
  by apply dict_get_set_ne.
Qed.

Lemma resolve_object_zero project trace slides (obj : Obj) :
  String.prefix "cle##" (binary_basename project obj) = false →
  pic project obj = false ∨ _custom_base_addr project obj = true →
  resolve_object project trace slides obj = Ok (Dict.set slides (Some obj) 0).
Proof.
  intros Hname Hfixed. unfold resolve_object. rewrite Hname.
  destruct (pic project obj); simpl; [|done].
  by destruct Hfixed as [?| ->].
Qed.

Lemma resolve_objects_zero project trace objs slides (obj : Obj) final :
  String.prefix "cle##" (binary_basename project obj) = false →
  pic project obj = false ∨ _custom_base_addr project obj = true →
  obj ∈ objs ∨ Dict.get slides (Some obj) = Some 0 →
  resolve_objects project trace objs slides = Ok final →
  Dict.get final (Some obj) = Some 0.
Proof.
  intros Hname Hfixed. revert slides.
  induction objs as [|o objs IH]; intros slides Hin; simpl.
  - intros [= <-]. by destruct Hin as [?%elem_of_nil|?].
  - destruct (resolve_object project trace slides o) as [slides'|] eqn:Ho;
      [cbn|done].
    apply IH. destruct (decide (o = obj)) as [->|Hne].
    + right. rewrite resolve_object_zero in Ho by done.
      injection Ho as <-. apply dict_get_set_eq.
    + destruct Hin as [[?|?]%elem_of_cons|Hget]; [done|by left|].
      right. rewrite <- Hget. eapply resolve_object_other; [done|congruence].
Qed.

(** C5 (amended).  For a module that is not a loader pseudo-object
    (its basename does not start with [cle##]) and is either not
    position independent or has a custom base address: whatever the
    trace, resolving the module succeeds and sets its slide to 0, no
    search being involved; and when the pass over all the loader's
    objects completes, the module's slide in the resulting table
    is 0. *)
Theorem resolve_object_unslid project slides (obj : Obj) :
  String.prefix "cle##" (binary_basename project obj) = false →
  pic project obj = false ∨ _custom_base_addr project obj = true →
  (∀ trace,
     resolve_object project trace slides obj =
     Ok (Dict.set slides (Some obj) 0)) ∧
  Dict.get (Dict.set slides (Some obj) 0) (Some obj) = Some 0 ∧
  (∀ trace final,
     obj ∈ all_objects project →
     _identify_aslr_slides project trace slides = Ok final →
     Dict.get final (Some obj) = Some 0).
Proof.
  intros Hname Hfixed. split; [|split].
  - intros trace. by apply resolve_object_zero.
  - apply dict_get_set_eq.
  - intros trace final Hin Hrun.
    eapply resolve_objects_zero; [done..|by left|done].
Qed.

(** *** Address translation *)

(** With the module passed to each call: for a module with an entry in
    the slide table and any address [a], translating [a] to the model,
    back to the trace and to the model again gives the model address of
    the first translation; the translation back gives [a] itself. *)
Theorem translate_round_trip project slides (obj : Obj) (slide a : Z) :
  Dict.get slides (Some obj) = Some slide →
  ∃ m t,
    translate_trace_addr project slides a (Some obj) = Ok m ∧
    translate_state_addr project slides m (Some obj) = Ok t ∧
    translate_trace_addr project slides t (Some obj) = Ok m ∧
    m = a - slide ∧ t = a.
Proof.
  intros Hget. exists (a - slide), a.
  unfold translate_trace_addr, translate_state_addr. cbn.
  rewrite Hget. replace (a - slide + slide) with a by lia. done.
Qed.

Lemma find_by_slide_Ok project slides trace_addr key :
  find_by_slide project slides trace_addr = Ok key →
  ∃ o slide, key = Some o ∧ (Some o, slide) ∈ slides ∧
             contains_addr project o (trace_addr - slide) = true.
Proof.
  induction slides as [|[[o|] slide] slides IH]; simpl; [done| |done].
  destruct (contains_addr project o (trace_addr - slide)) eqn:Hc.
  - intros [= <-]. exists o, slide. split; [done|]. split; [by left|done].
  - intros (o' & s' & ? & ? & ?)%IH. exists o', s'.
    split; [done|]. split; [by right|done].
Qed.

Lemma dict_get_elem_of slides (key : option Obj) slide :
  NoDup slides.*1 → (key, slide) ∈ slides → Dict.get slides key = Some slide.
Proof.
  induction slides as [|[k v] slides IH]; simpl;
    [by intros _ ?%elem_of_nil|].
  intros [Hk Hnd]%NoDup_cons [[= -> ->]|Hin]%elem_of_cons.
  - by rewrite decide_True.
  - rewrite decide_False; [by apply IH|].
    intros ->. apply Hk. apply list_elem_of_fmap. by exists (key, slide).
Qed.

Lemma dict_set_keys slides (key : option Obj) slide :
  NoDup slides.*1 → NoDup (Dict.set slides key slide).*1.
Proof.
  induction slides as [|[k v] slides IH]; simpl.
  - intros _. apply NoDup_singleton.
  - intros [Hk Hnd]%NoDup_cons. case_decide as Hkey; simpl.
    + subst. by apply NoDup_cons.
    + apply NoDup_cons. split; [|by apply IH].
      intros ([k' v'] & Heq & Hin)%list_elem_of_fmap. simpl in Heq. subst k'.
      apply Hk. clear IH Hk Hnd.
      induction slides as [|[k0 v0] slides IH]; simpl in Hin.
      * apply list_elem_of_singleton in Hin. congruence.
      * case_decide; simpl in *.
        -- apply elem_of_cons in Hin as [[= -> ->]|Hin]; [done|].
           right. apply list_elem_of_fmap. by exists (k, v').
        -- apply elem_of_cons in Hin as [[= -> ->]|Hin]; [by left|].
           right. by apply IH.
Qed.

(** With the module inferred on both sides: when the loader's lookup
    agrees with the objects' containment test, translating to the
    model and back returns the trace address. *)
Lemma translate_round_trip_inferred project slides (a m : Z) :
  NoDup slides.*1 →
  (∀ o x, contains_addr project o x = true →
          find_object_containing project x = Some o) →
  translate_trace_addr project slides a None = Ok m →
  translate_state_addr project slides m None = Ok a.
Proof.
  intros Hnd Hloader. unfold translate_trace_addr, translate_state_addr.
  destruct (find_by_slide project slides a) as [key|] eqn:Hfind; [cbn|done].
  apply find_by_slide_Ok in Hfind as (o & slide & -> & Hin & Hc).
  rewrite (dict_get_elem_of _ _ _ Hnd Hin). intros [= <-].
  rewrite (Hloader _ _ Hc), (dict_get_elem_of _ _ _ Hnd Hin).
  f_equal. lia.
Qed.

(** C8 (amended).  With the module omitted, [translate_state_addr]
    takes as owner what the loader's lookup
    [find_object_containing(model_address)] returns, a module or no
    module: it returns [model_address + slide] when the owner has an
    entry in the slide table and fails with [UnresolvedModule] when it
    has none, which is the only way it fails; in particular it never
    fails with [NoOwningModule].  Scanning the slide table, and
    failing with [NoOwningModule] when no entry's module contains the
    address less the slide, is what [translate_trace_addr] does. *)
Theorem translate_state_addr_inferred project slides (model_address : Z) :
  let owner := find_object_containing project model_address in
  (∀ slide, Dict.get slides owner = Some slide →
     translate_state_addr project slides model_address None =
     Ok (model_address + slide)) ∧
  (Dict.get slides owner = None →
     translate_state_addr project slides model_address None =
     Raise UnresolvedModule) ∧
  (∀ e, translate_state_addr project slides model_address None = Raise e →
        e = UnresolvedModule ∧ Dict.get slides owner = None) ∧
  (∀ trace_address,
     (∀ key slide, (key, slide) ∈ slides →
        ∃ o, key = Some o ∧
             contains_addr project o (trace_address - slide) = false) →
     translate_trace_addr project slides trace_address None =
     Raise NoOwningModule).
Proof.
  intros owner. unfold translate_state_addr. fold owner.
  split; [|split; [|split]].
  - by intros slide ->.
  - by intros ->.
  - intros e. destruct (Dict.get slides owner); [done|].
    by intros [= <-].
  - intros trace_address Hnone. unfold translate_trace_addr.
    assert (find_by_slide project slides trace_address = Raise NoOwningModule)
      as ->; [|done].
    induction slides as [|[key slide] slides IH]; simpl; [done|].
    destruct (Hnone key slide) as (o & -> & ->); [by left|].
    apply IH. intros k s ?. apply Hnone. by right.
Qed.

(** *** Lockstep comparison *)

Lemma compare_addr_owner project slides trace_addr state_addr :
  let current_bin := find_object_containing project state_addr in
  current_bin ≠ _extern_object project →
  current_bin ≠ _kernel_object project →
  compare_addr project slides trace_addr state_addr =
  match Dict.get slides current_bin with
  | Some current_slide =>
      (Ok (trace_addr =? state_addr + current_slide), slides)
  | None =>
      if page_aligned (trace_addr - state_addr) then
        (Ok true, Dict.set slides current_bin (trace_addr - state_addr))
      else
        match current_bin with
        | Some o => (Raise (TraceDesyncModule o), slides)
        | None => (Raise (TraceDesyncUnmapped state_addr), slides)
        end
  end.
Proof.
  intros current_bin Hext Hker. unfold compare_addr. fold current_bin.
  by rewrite !bool_decide_eq_false_2.
Qed.

(** C7. When the module owning [model_address] is neither the extern
    nor the kernel object and has slide [S] in the table, the
    comparison returns true exactly when
    [trace_address - model_address = S], and the table after the call
    is the table before it. *)
Theorem compare_addr_resolved project slides (obj : Obj)
    (S trace_address model_address : Z) :
  find_object_containing project model_address = Some obj →
  Some obj ≠ _extern_object project →
  Some obj ≠ _kernel_object project →
  Dict.get slides (Some obj) = Some S →
  ∃ b, compare_addr project slides trace_address model_address
       = (Ok b, slides) ∧
       (b = true ↔ trace_address - model_address = S).
Proof.
  intros Hown Hext Hker Hget.
  rewrite compare_addr_owner; rewrite Hown; [|done..].
  rewrite Hget. eexists. split; [done|]. rewrite Z.eqb_eq. lia.
Qed.

(** The unmapped desync is raised in one situation only. *)
Lemma compare_addr_unmapped_only project slides trace_addr state_addr addr :
  (compare_addr project slides trace_addr state_addr).1 =
  Raise (TraceDesyncUnmapped addr) →
  addr = state_addr ∧
  find_object_containing project state_addr = None ∧
  Dict.get slides None = None ∧
  (trace_addr - state_addr) mod 4096 ≠ 0.
Proof.
  unfold compare_addr.
  destruct (_ || _); [done|].
  destruct (find_object_containing project state_addr) as [o|] eqn:Hown.
  - destruct (Dict.get slides (Some o)); [done|].
    by destruct (page_aligned _).
  - destruct (Dict.get slides None); [done|].
    destruct (page_aligned _) eqn:Ha; [done|]. simpl. intros [= <-].
    repeat split. intros Hmod%page_aligned_mod. congruence.
Qed.

(** C10 (amended).  When no module owns [model_address], the
    no-module result is neither the extern nor the kernel object, and
    the no-module result has no entry in the slide table yet: if
    [trace_address - model_address] is a multiple of 4096 the
    comparison records that difference in the table under the
    no-module key and returns true without raising; otherwise it
    raises the "no library is mapped" desync and leaves the table as
    it was.  So that failure needs the difference not to be page
    aligned. *)
Theorem compare_addr_unmapped project slides (trace_address model_address : Z) :
  find_object_containing project model_address = None →
  _extern_object project ≠ None →
  _kernel_object project ≠ None →
  Dict.get slides None = None →
  ((trace_address - model_address) mod 4096 = 0 →
   compare_addr project slides trace_address model_address =
   (Ok true, Dict.set slides None (trace_address - model_address))) ∧
  ((trace_address - model_address) mod 4096 ≠ 0 →
   compare_addr project slides trace_address model_address =
   (Raise (TraceDesyncUnmapped model_address), slides)) ∧
  ((compare_addr project slides trace_address model_address).1 =
   Raise (TraceDesyncUnmapped model_address) ↔
   (trace_address - model_address) mod 4096 ≠ 0).
Proof.
  intros Hown Hext Hker Hget.
  rewrite compare_addr_owner; rewrite Hown; [|done..].
  rewrite Hget.
  destruct (page_aligned (trace_address - model_address)) eqn:Ha.
  - apply page_aligned_mod in Ha. split; [done|]. split; [done|].
    simpl. split; [done|]. intros Hne. done.
  - assert ((trace_address - model_address) mod 4096 ≠ 0) as Hne.
    { intros Hmod%page_aligned_mod. congruence. }
    split; [done|]. split; [done|]. simpl. done.
Qed.

(** Once the no-module key has an entry, the comparison for an
    unowned address tests against that entry and records nothing. *)
Lemma compare_addr_unmapped_again project slides trace_addr state_addr slide :
  find_object_containing project state_addr = None →
  _extern_object project ≠ None →
  _kernel_object project ≠ None →
  Dict.get slides None = Some slide →
  compare_addr project slides trace_addr state_addr =
  (Ok (trace_addr =? state_addr + slide), slides).
Proof.
  intros Hown Hext Hker Hget.
  rewrite compare_addr_owner; rewrite Hown; [|done..]. by rewrite Hget.
Qed.

(** The extern and kernel objects compare false, whatever the table. *)
Lemma compare_addr_pseudo project slides trace_addr state_addr :
  find_object_containing project state_addr = _extern_object project ∨
  find_object_containing project state_addr = _kernel_object project →
  compare_addr project slides trace_addr state_addr = (Ok false, slides).
Proof.
  intros Hpseudo. unfold compare_addr.
  destruct Hpseudo as [->| ->].
  - by rewrite bool_decide_eq_true_2.
  - rewrite (bool_decide_eq_true_2 (_ = _kernel_object project)) by done.
    by rewrite orb_true_r.
Qed.

(** A call that raises leaves the table as it was. *)
Lemma compare_addr_Raise project slides trace_addr state_addr e :
  (compare_addr project slides trace_addr state_addr).1 = Raise e →
  (compare_addr project slides trace_addr state_addr).2 = slides ∧
  (trace_addr - state_addr) mod 4096 ≠ 0.
Proof.
  unfold compare_addr. destruct (_ || _); [done|].
  destruct (Dict.get slides _); [done|].
  destruct (page_aligned _) eqn:Ha; [done|]. intros _. split.
  - by destruct (find_object_containing project state_addr).
  - intros Hmod%page_aligned_mod. congruence.
Qed.

(** *** The keys of the table stay distinct *)

Lemma resolve_objects_keys project trace objs slides final :
  NoDup slides.*1 →
  resolve_objects project trace objs slides = Ok final →
  NoDup final.*1.
Proof.
  revert slides. induction objs as [|obj objs IH]; intros slides Hnd; simpl.
  - by intros [= <-].
  - destruct (resolve_object project trace slides obj) as [slides'|] eqn:Ho;
      [cbn|done].
    apply IH.
    apply resolve_object_Ok in Ho as [->|[slide ->]]; [done|].
    by apply dict_set_keys.
Qed.

Lemma init_keys project trace slides :
  __init__ project trace = Ok slides → NoDup slides.*1.
Proof. apply resolve_objects_keys. apply NoDup_nil_2. Qed.

Lemma compare_addr_keys project slides trace_addr state_addr :
  NoDup slides.*1 →
  NoDup (compare_addr project slides trace_addr state_addr).2.*1.
Proof.
  intros Hnd. unfold compare_addr. destruct (_ || _); [done|].
  destruct (Dict.get slides _); [done|].
  destruct (page_aligned _); [by apply dict_set_keys|].
  by destruct (find_object_containing project state_addr).
Qed.

End Properties.

(** ** The analysis on the small project *)

Example demo_init : __init__ demo_project demo_trace = Ok demo_slides.
Proof. vm_compute. reflexivity. Qed.

Example demo_locate_initializer :
  _locate_entry_point_passes demo_project demo_trace 0x601000 =
  (Ok {[2%nat]}, [0x40000]).
Proof. vm_compute. reflexivity. Qed.

(** *** The validator on the run *)

(** The main binary's entry block jumps to 0x400010, which the trace
    takes next; the library's initializer has no direct successor and is
    followed by a far jump at index 2, by a near one at index 3. *)
Lemma filter_idx_spec_witness :
  _filter_idx demo_project demo_trace 0x400000 0 = Ok true ∧
  _filter_idx demo_project demo_trace 0x601000 2 = Ok true ∧
  ∃ b, _filter_idx demo_project demo_trace 0x601000 3 = Ok b.
Proof.
  split; [|split].
  - destruct (filter_idx_spec demo_project demo_trace 0x400000 0)
      as (Hsome & _ & _).
    apply Hsome; [by vm_compute|].
    exists 0x400000, 0x400010, 0x400010.
    repeat split.
  - destruct (filter_idx_spec demo_project demo_trace 0x601000 2)
      as (_ & Hnone & _).
    apply Hnone; [reflexivity|].
    exists 0x7f0000601000, 0x7f0000700000. repeat split.
  - destruct (filter_idx_spec demo_project demo_trace 0x601000 3)
      as (_ & _ & Hret).
    apply Hret. simpl. lia.
Defined.

(** Cut after the initializer's first step, the run ends on a selected
    index and the search raises. *)
Lemma filter_idx_reads_next_witness :
  2%nat ∈ scan_pass (take 3 demo_trace) 0x601000 0x40000 ∅ ∧
  _locate_entry_point demo_project (take 3 demo_trace) 0x601000 =
  Raise IndexError.
Proof.
  assert (2%nat ∈ scan_pass (take 3 demo_trace) 0x601000 0x40000 ∅) as Hin.
  { apply scan_pass_selected. by exists 0x7f0000601000. }
  split; [done|].
  destruct (filter_idx_reads_next demo_project (take 3 demo_trace) 0x601000)
    as (_ & _ & _ & _ & Hsearch & _).
  by apply (Hsearch 2%nat).
Defined.

(** *** Slide resolution on the run *)

(** The library: position independent, no custom base, one initializer,
    whose search returns index 2. *)
Lemma resolve_object_searched_witness :
  entry_addresses demo_project 1%nat = [0x601000] ∧
  _locate_entry_point demo_project demo_trace 0x601000 = Ok {[2%nat]} ∧
  ∃ possibilities : gset Z,
    (∀ z, z ∈ possibilities ↔
          ∀ entry, entry ∈ entry_addresses demo_project 1%nat →
                   candidate_slide demo_project demo_trace entry z) ∧
    (possibilities = ∅ →
     resolve_object demo_project demo_trace [] 1%nat =
     Raise (AmbiguousOrAbsentTrace 1%nat)) ∧
    (∀ slide, possibilities = {[slide]} →
     resolve_object demo_project demo_trace [] 1%nat =
     Ok (Dict.set [] (Some 1%nat) slide)) ∧
    ((1 < size possibilities)%nat →
     resolve_object demo_project demo_trace [] 1%nat =
     Raise (AmbiguousSlide 1%nat)).
Proof.
  split; [reflexivity|]. split; [by vm_compute|].
  apply (resolve_object_searched demo_project demo_trace [] 1%nat);
    [reflexivity|reflexivity|reflexivity|discriminate|].
  intros entry ->%list_elem_of_singleton.
  exists {[2%nat]}. by vm_compute.
Defined.

(** C1, as stated, fails on a pseudo-object: the extern object is
    position independent, has no custom base address and has one entry
    address, whose candidate slides are the single 0x7effffd01000; the
    code skips the object and records nothing. *)
Lemma resolve_object_pseudo_object :
  pic demo_project 2%nat = true ∧
  _custom_base_addr demo_project 2%nat = false ∧
  entry_addresses demo_project 2%nat = [0x900000] ∧
  _locate_entry_point demo_project demo_trace 0x900000 = Ok {[2%nat]} ∧
  slides_of (Obj := nat) demo_trace 0x900000 (elements ({[2%nat]} : gset nat)) =
  Ok {[0x7effffd01000]} ∧
  resolve_object demo_project demo_trace [] 2%nat = Ok [] ∧
  resolve_object demo_project demo_trace [] 2%nat ≠
  Ok (Dict.set [] (Some 2%nat) 0x7effffd01000).
Proof. repeat split; by vm_compute. Qed.

(** The main binary is not position independent. *)
Lemma resolve_object_unslid_witness :
  (∀ trace,
     resolve_object demo_project trace [] 0%nat =
     Ok (Dict.set [] (Some 0%nat) 0)) ∧
  Dict.get (Dict.set [] (Some 0%nat) 0) (Some 0%nat) = Some 0 ∧
  (∀ trace final,
     0%nat ∈ all_objects demo_project →
     _identify_aslr_slides demo_project trace [] = Ok final →
     Dict.get final (Some 0%nat) = Some 0).
Proof.
  apply (resolve_object_unslid demo_project [] 0%nat);
    [reflexivity|left; reflexivity].
Defined.

(** C5, as stated, fails on a pseudo-object: the kernel object is not
    position independent, and gets no slide, neither from its own
    iteration nor in the table of the whole pass. *)
Lemma resolve_object_pseudo_not_pic :
  pic demo_project 3%nat = false ∧
  3%nat ∈ all_objects demo_project ∧
  resolve_object demo_project demo_trace [] 3%nat = Ok [] ∧
  __init__ demo_project demo_trace = Ok demo_slides ∧
  Dict.get demo_slides (Some 3%nat) = None ∧
  Dict.get demo_slides (Some 3%nat) ≠ Some 0.
Proof.
  split; [reflexivity|]. split; [set_solver|].
  repeat split; by vm_compute.
Qed.

(** *** Translation and comparison on the run *)

Lemma translate_round_trip_witness :
  Dict.get demo_slides (Some 1%nat) = Some 0x7f0000000000 ∧
  ∃ m t,
    translate_trace_addr demo_project demo_slides 0x7f0000601234 (Some 1%nat)
    = Ok m ∧
    translate_state_addr demo_project demo_slides m (Some 1%nat) = Ok t ∧
    translate_trace_addr demo_project demo_slides t (Some 1%nat) = Ok m ∧
    m = 0x7f0000601234 - 0x7f0000000000 ∧ t = 0x7f0000601234.
Proof.
  split; [reflexivity|].
  apply (translate_round_trip demo_project demo_slides 1%nat). reflexivity.
Defined.

Lemma compare_addr_resolved_witness :
  find_object_containing demo_project 0x601000 = Some 1%nat ∧
  ∃ b, compare_addr demo_project demo_slides 0x7f0000601000 0x601000
       = (Ok b, demo_slides) ∧
       (b = true ↔ 0x7f0000601000 - 0x601000 = 0x7f0000000000).
Proof.
  split; [reflexivity|].
  apply (compare_addr_resolved demo_project demo_slides 1%nat);
    [reflexivity|discriminate|discriminate|reflexivity].
Defined.

Lemma translate_state_addr_inferred_witness :
  translate_state_addr demo_project demo_slides 0x601234 None =
  Ok (0x601234 + 0x7f0000000000) ∧
  translate_state_addr demo_project demo_slides 0x1000 None =
  Raise UnresolvedModule.
Proof.
  split.
  - destruct (translate_state_addr_inferred demo_project demo_slides 0x601234)
      as (Hsome & _).
    apply Hsome. reflexivity.
  - destruct (translate_state_addr_inferred demo_project demo_slides 0x1000)
      as (_ & Hnone & _).
    apply Hnone. reflexivity.
Defined.

(** C8, as stated, fails: for 0x601234, owned by the library, no entry
    of the table contains the address less its slide, so the scan the
    claim describes finds no module, while the code translates the
    address; for 0x1000, owned by no module, the code fails with
    [UnresolvedModule], not with [NoOwningModule]. *)
Lemma translate_state_addr_not_as_specified :
  translate_state_addr demo_project demo_slides 0x601234 None =
  Ok 0x7f0000601234 ∧
  to_trace_as_specified demo_project demo_slides 0x601234 =
  Raise NoOwningModule ∧
  find_object_containing demo_project 0x1000 = None ∧
  translate_state_addr demo_project demo_slides 0x1000 None =
  Raise UnresolvedModule ∧
  translate_state_addr demo_project demo_slides 0x1000 None ≠
  Raise NoOwningModule.
Proof. repeat split; by vm_compute. Qed.

Lemma compare_addr_unmapped_witness :
  (0x2000 - 0x1000) mod 4096 = 0 ∧
  compare_addr demo_project demo_slides 0x2000 0x1000 =
  (Ok true, Dict.set demo_slides None (0x2000 - 0x1000)) ∧
  compare_addr demo_project demo_slides 0x2004 0x1000 =
  (Raise (TraceDesyncUnmapped 0x1000), demo_slides).
Proof.
  split; [reflexivity|]. split.
  - destruct (compare_addr_unmapped demo_project demo_slides 0x2000 0x1000)
      as (Haligned & _); [reflexivity|discriminate|discriminate|reflexivity|].
    apply Haligned. reflexivity.
  - destruct (compare_addr_unmapped demo_project demo_slides 0x2004 0x1000)
      as (_ & Hnot & _); [reflexivity|discriminate|discriminate|reflexivity|].
    apply Hnot. discriminate.
Defined.

(** C10, as stated, fails once the no-module key has an entry: after a
    first page-aligned comparison at an unowned address has recorded
    0x1000 under that key, a second one whose difference 0x2000 is page
    aligned too returns false and records nothing. *)
Lemma compare_addr_unmapped_twice :
  find_object_containing demo_project 0x1000 = None ∧
  _extern_object demo_project ≠ None ∧
  _kernel_object demo_project ≠ None ∧
  compare_addr demo_project [] 0x2000 0x1000 = (Ok true, [(None, 0x1000)]) ∧
  (0x3000 - 0x1000) mod 4096 = 0 ∧
  compare_addr demo_project [(None, 0x1000)] 0x3000 0x1000 =
  (Ok false, [(None, 0x1000)]) ∧
  compare_addr demo_project [(None, 0x1000)] 0x3000 0x1000 ≠
  (Ok true, Dict.set [(None, 0x1000)] None (0x3000 - 0x1000)).
Proof. repeat split; by vm_compute. Qed.

(** ** Further properties of the analysis *)

Section Behaviour.
Context {Obj : Type} `{EqDecision Obj}.
Implicit Types (project : Project Obj) (trace : list Z).
Implicit Types (indices : gset nat) (slides : Dict.t (K := option Obj)).

(** *** What the search returns *)

(** An index the loop returns was there on entry or was selected by a
    pass, at one of the halvings of the entry threshold that is still
    above 0x2000, and kept by the validator. *)
Lemma locate_loop_found project trace angr_addr indices threshold :
  ∀ found,
    (locate_loop project trace angr_addr indices threshold).1 = Ok found →
    ∀ i, i ∈ found →
         i ∈ indices ∨
         ∃ k : nat,
           0x2000 < threshold / 2 ^ Z.of_nat k ∧
           i ∈ scan_pass trace angr_addr (threshold / 2 ^ Z.of_nat k) ∅ ∧
           _filter_idx project trace angr_addr i = Ok true.
Proof.
  funelim (locate_loop project trace angr_addr indices threshold);
    intros found Hfound i Hi; simpl in Hfound.
  - injection Hfound as <-. by left.
  - destruct (proj1 (loop_guard_true _ _) Hguard) as [Hempty Hlt].
    rewrite Hempty in Heq.
    apply filter_indices_Ok in Heq as [_ Hkept].
    destruct (H _ Hfound _ Hi) as [Hin|(k & Hk & Hscan & Hf)].
    + right. exists 0%nat. rewrite Z.div_1_r.
      apply Hkept in Hin as [Hin%elem_of_elements ?]. done.
    + right. exists (S k).
      replace (threshold / 2 ^ Z.of_nat (S k))
        with (threshold / 2 / 2 ^ Z.of_nat k); [done|].
      rewrite Nat2Z.inj_succ, Z.pow_succ_r by lia.
      rewrite Z.div_div by lia. done.
  - done.
Qed.

Lemma halving_above_guard (k : nat) :
  0x2000 < 0x40000 / 2 ^ Z.of_nat k → 0x4000 ≤ 0x40000 / 2 ^ Z.of_nat k.
Proof.
  do 5 (destruct k as [|k]; [by vm_compute|]).
  intros Hlt. exfalso.
  replace (Z.of_nat (S (S (S (S (S k)))))) with (5 + Z.of_nat k) in Hlt by lia.
  rewrite Z.pow_add_r in Hlt by lia.
  rewrite <- Z.div_div in Hlt by lia.
  change (0x40000 / 2 ^ 5) with 0x2000 in Hlt.
  assert (0x2000 / 2 ^ Z.of_nat k ≤ 0x2000); [|lia].
  apply Z.div_le_upper_bound; [lia|]. nia.
Qed.

(** X1. Every index the search returns is an index of the trace that is
    not the last one, holds an address congruent to the entry address
    modulo 4096, is accepted by the validator, and is index 0 or comes
    right after a jump of more than 0x4000, the smallest threshold a
    pass uses. *)
Theorem locate_entry_point_sound project trace (entry_address : Z) found i :
  _locate_entry_point project trace entry_address = Ok found →
  i ∈ found →
  (i + 1 < length trace)%nat ∧
  _filter_idx project trace entry_address i = Ok true ∧
  ∃ addr,
    trace !! i = Some addr ∧
    (addr - entry_address) mod 4096 = 0 ∧
    (i = 0%nat ∨
     ∃ prev, trace !! (i - 1)%nat = Some prev ∧ 0x4000 < Z.abs (prev - addr)).
Proof.
  intros Hfound Hi.
  split; [by eapply locate_entry_point_in_range|].
  destruct (locate_loop_found _ _ _ _ _ _ Hfound _ Hi)
    as [[]%not_elem_of_empty|(k & Hk & Hscan & Hf)].
  split; [done|]. apply halving_above_guard in Hk.
  apply scan_pass_selected in Hscan as (addr & Haddr & Hsel).
  apply selected_true in Hsel as (Hmod & Hjump).
  exists addr. split; [done|]. split; [done|].
  destruct Hjump as [?|(prev & ? & ?)]; [by left|].
  right. exists prev. split; [done|lia].
Qed.

(** A raise of the loop comes from a pass that selected the last index
    of the trace. *)
Lemma locate_loop_raised project trace angr_addr indices threshold :
  ∀ e,
    (locate_loop project trace angr_addr indices threshold).1 = Raise e →
    ∃ t last, S last = length trace ∧
              last ∈ scan_pass trace angr_addr t ∅.
Proof.
  funelim (locate_loop project trace angr_addr indices threshold);
    intros e' Hr; simpl in Hr.
  - done.
  - by eapply H.
  - destruct (proj1 (loop_guard_true _ _) Hguard) as [Hempty Hlt].
    rewrite Hempty in Heq.
    apply filter_indices_Raise in Heq as (_ & i & Hi%elem_of_elements & Hout).
    pose proof (scan_pass_lt _ _ _ _ Hi).
    exists threshold, i. split; [lia|done].
Qed.

(** X2. The search raises nothing but [IndexError], and raises it only
    when the last address of the trace is congruent to the entry address
    modulo 4096; on a trace that is empty or whose last address is not,
    the search returns. *)
Theorem locate_entry_point_raises project trace (entry_address : Z) :
  (∀ e, _locate_entry_point project trace entry_address = Raise e →
        e = IndexError ∧
        ∃ addr, last trace = Some addr ∧ (addr - entry_address) mod 4096 = 0) ∧
  ((∀ addr, last trace = Some addr → (addr - entry_address) mod 4096 ≠ 0) →
   ∃ found, _locate_entry_point project trace entry_address = Ok found).
Proof.
  assert (∀ e, _locate_entry_point project trace entry_address = Raise e →
               e = IndexError ∧
               ∃ addr, last trace = Some addr ∧
                       (addr - entry_address) mod 4096 = 0) as Hraise.
  { intros e Hr. split; [by eapply locate_loop_Raise|].
    apply locate_loop_raised in Hr as (t & i & Hlen & Hin).
    apply scan_pass_selected in Hin as (addr & Haddr & Hsel).
    apply selected_true in Hsel as (Hmod & _).
    exists addr. split; [|done].
    rewrite last_lookup, <- Hlen. done. }
  split; [done|]. intros Hlast.
  destruct (_locate_entry_point project trace entry_address) as [found|e] eqn:Hl;
    [by exists found|].
  destruct (Hraise e eq_refl) as (_ & addr & Ha & Hmod). by apply Hlast in Ha.
Qed.

(** X3. Lowering the threshold only adds to what a pass selects: every
    index selected at a threshold is selected at every smaller one. *)
Theorem scan_pass_threshold_mono trace (entry_address low high : Z) :
  low ≤ high →
  scan_pass trace entry_address high ∅ ⊆ scan_pass trace entry_address low ∅.
Proof.
  intros Hle i. rewrite !scan_pass_selected.
  intros (addr & Haddr & Hsel). exists addr. split; [done|].
  apply selected_true in Hsel as (Hmod & Hjump). apply selected_true.
  split; [done|]. destruct Hjump as [?|(prev & ? & ?)]; [by left|].
  right. exists prev. split; [done|lia].
Qed.

(** *** What resolution records *)

Lemma candidate_slide_aligned project trace entry z :
  candidate_slide project trace entry z →
  z mod 4096 = 0 ∧ entry + z ∈ trace.
Proof.
  intros (found & idx & addr & Hfound & Hidx & Haddr & ->).
  destruct (locate_loop_found _ _ _ _ _ _ Hfound _ Hidx)
    as [[]%not_elem_of_empty|(k & _ & Hscan & _)].
  apply scan_pass_selected in Hscan as (addr' & Haddr' & Hsel).
  apply selected_true in Hsel as (Hmod & _).
  assert (addr' = addr) as -> by congruence.
  split; [done|]. replace (entry + (addr - entry)) with addr by lia.
  by eapply list_elem_of_lookup_2.
Qed.

(** Without an address congruent to the entry, the search returns the
    empty set. *)
Lemma locate_entry_point_absent project trace entry :
  (∀ addr, addr ∈ trace → (addr - entry) mod 4096 ≠ 0) →
  _locate_entry_point project trace entry = Ok ∅.
Proof.
  intros Habsent.
  assert (∀ t i, i ∉ scan_pass trace entry t ∅) as Hscan.
  { intros t i (addr & Haddr & Hsel)%scan_pass_selected.
    apply selected_true in Hsel as (Hmod & _).
    eapply Habsent; [|done]. by eapply list_elem_of_lookup_2. }
  destruct (_locate_entry_point project trace entry) as [found|e] eqn:Hl.
  - f_equal. apply leibniz_equiv. intros i. split; [|set_solver].
    intros Hi.
    destruct (locate_loop_found _ _ _ _ _ _ Hl _ Hi)
      as [?|(k & _ & Hin & _)]; [done|].
    by apply Hscan in Hin.
  - apply locate_loop_raised in Hl as (t & i & _ & Hin).
    by apply Hscan in Hin.
Qed.

(** One object whose resolution raises makes the whole pass raise. *)
Lemma resolve_objects_raise project trace objs (obj : Obj) :
  obj ∈ objs →
  (∀ slides, ∃ e, resolve_object project trace slides obj = Raise e) →
  ∀ slides, ∃ e, resolve_objects project trace objs slides = Raise e.
Proof.
  intros Hin Hraise.
  induction objs as [|o objs IH]; intros slides; simpl;
    [by apply elem_of_nil in Hin|].
  destruct (resolve_object project trace slides o) as [slides'|e] eqn:Ho;
    cbn; [|by exists e].
  apply elem_of_cons in Hin as [->|Hin]; [|by apply IH].
  destruct (Hraise slides) as [e He]. congruence.
Qed.

(** X4. When no address of the trace is congruent modulo 4096 to any
    entry address of a module that is searched (not a pseudo-object,
    position independent, no custom base address, at least one entry
    address), resolving the module raises [AmbiguousOrAbsentTrace],
    whatever the table; and when the module is one of the loader's
    objects, building the analysis raises.  The empty trace is one such
    case. *)
Theorem resolve_object_absent project trace (obj : Obj) :
  String.prefix "cle##" (binary_basename project obj) = false →
  pic project obj = true →
  _custom_base_addr project obj = false →
  entry_addresses project obj ≠ [] →
  (∀ entry addr, entry ∈ entry_addresses project obj → addr ∈ trace →
                 (addr - entry) mod 4096 ≠ 0) →
  (∀ slides,
     resolve_object project trace slides obj =
     Raise (AmbiguousOrAbsentTrace obj)) ∧
  (obj ∈ all_objects project → ∃ e, __init__ project trace = Raise e).
Proof.
  intros Hname Hpic Hbase Hentries Habsent.
  assert (∀ slides,
            resolve_object project trace slides obj =
            Raise (AmbiguousOrAbsentTrace obj)) as Hraise.
  { intros slides.
    unfold resolve_object. rewrite Hname, Hpic, Hbase. simpl.
    destruct (entry_addresses project obj) as [|entry entries]; [done|].
    destruct (possibilities_loop_seed project trace entry entries)
      as (p & -> & Hp).
    { intros e He. exists ∅. apply locate_entry_point_absent.
      intros addr. by apply Habsent. }
    cbn. assert (p = ∅) as ->; [|by rewrite elements_empty].
    apply leibniz_equiv. intros z. split; [|set_solver].
    intros Hz. exfalso.
    assert (candidate_slide project trace entry z) as Hc
      by (apply Hp; [done|by left]).
    apply candidate_slide_aligned in Hc as (Hmod & Hin).
    eapply (Habsent entry); [by left|done|].
    by replace (entry + z - entry) with z by lia. }
  split; [done|]. intros Hin.
  eapply resolve_objects_raise; [done|]. intros slides. eauto.
Qed.

(** How one object is resolved, case by case. *)
Lemma resolve_object_cases project trace slides (obj : Obj) slides' :
  resolve_object project trace slides obj = Ok slides' →
  slides' = slides ∨
  (String.prefix "cle##" (binary_basename project obj) = false ∧
   ((pic project obj = false ∨ _custom_base_addr project obj = true) ∧
    slides' = Dict.set slides (Some obj) 0
    ∨
    pic project obj = true ∧ _custom_base_addr project obj = false ∧
    ∃ entry slide,
      entry ∈ entry_addresses project obj ∧
      candidate_slide project trace entry slide ∧
      slides' = Dict.set slides (Some obj) slide)).
Proof.
  unfold resolve_object.
  destruct (String.prefix _ _) eqn:Hname; [intros [= <-]; by left|].
  destruct (pic project obj) eqn:Hpic; simpl.
  2: { intros [= <-]. right. split; [done|]. left. auto. }
  destruct (_custom_base_addr project obj) eqn:Hbase.
  { intros [= <-]. right. split; [done|]. left. auto. }
  destruct (entry_addresses project obj) as [|entry entries] eqn:Hentries.
  { simpl. intros [= <-]. by left. }
  simpl.
  destruct (_locate_entry_point project trace entry) as [found|] eqn:Hfound;
    [cbn|done].
  destruct (entry_slides _ _ _ _ Hfound) as (cands & -> & Hcands). cbn.
  destruct (possibilities_loop project trace entries (Some cands))
    as [[p|]|] eqn:Hloop; cbn; [|intros [= <-]; by left|done].
  destruct (elements p) as [|slide [|]] eqn:Hel; [done| |done].
  intros [= <-]. right. split; [done|]. right. split; [done|]. split; [done|].
  exists entry, slide. split; [by left|]. split; [|done].
  apply Hcands.
  assert (slide ∈ p) as Hin.
  { apply elem_of_elements. rewrite Hel. by left. }
  clear Hel Hcands Hfound Hentries. revert cands Hloop.
  induction entries as [|e entries IH]; intros cands; simpl.
  - by intros [= ->].
  - destruct (_locate_entry_point project trace e) as [f|]; [cbn|done].
    destruct (slides_of trace e (elements f)) as [c|]; [cbn|done].
    intros Hloop%IH. set_solver.
Qed.

Lemma resolve_objects_fixed project trace objs slides :
  (∀ obj, obj ∈ objs →
     String.prefix "cle##" (binary_basename project obj) = true ∨
     pic project obj = false ∨ _custom_base_addr project obj = true) →
  ∃ final,
    resolve_objects project trace objs slides = Ok final ∧
    (∀ obj, obj ∈ objs →
       String.prefix "cle##" (binary_basename project obj) = false →
       Dict.get final (Some obj) = Some 0) ∧
    (∀ key,
       (∀ obj, key = Some obj →
          obj ∉ objs ∨
          String.prefix "cle##" (binary_basename project obj) = true) →
       Dict.get final key = Dict.get slides key).
Proof.
  revert slides. induction objs as [|o objs IH]; intros slides Hall; simpl.
  - exists slides. split; [done|]. split; [|done].
    by intros obj ?%elem_of_nil.
  - assert (∃ slides',
              resolve_object project trace slides o = Ok slides' ∧
              (String.prefix "cle##" (binary_basename project o) = true ∧
               slides' = slides ∨
               String.prefix "cle##" (binary_basename project o) = false ∧
               slides' = Dict.set slides (Some o) 0))
      as (slides' & Ho & Hslides').
    { destruct (String.prefix "cle##" (binary_basename project o)) eqn:Hname.
      - exists slides. unfold resolve_object. rewrite Hname. auto.
      - exists (Dict.set slides (Some o) 0).
        split; [|by right]. apply resolve_object_zero; [done|].
        destruct (Hall o) as [?|?]; [by left|congruence|done]. }
    rewrite Ho. cbn.
    destruct (IH slides') as (final & Hfinal & Hzero & Hother);
      [intros obj ?; apply Hall; by right|].
    exists final. split; [done|]. split.
    + intros obj [->|Hin]%elem_of_cons Hname; [|by apply Hzero].
      destruct (decide (o ∈ objs)); [by apply Hzero|].
      rewrite Hother; [|intros ? [= <-]; by left].
      destruct Hslides' as [[? _]|[_ ->]]; [congruence|].
      apply dict_get_set_eq.
    + intros key Hkey. rewrite Hother.
      * destruct Hslides' as [[_ ->]|[Hname ->]]; [done|].
        apply dict_get_set_ne. intros <-.
        destruct (Hkey o eq_refl) as [Hnot|?]; [|congruence].
        apply Hnot. by left.
      * intros obj ->. destruct (Hkey obj eq_refl) as [Hnot|?]; [|by right].
        left. intros ?. apply Hnot. by right.
Qed.

(** X5. When every object of the loader is a pseudo-object, not
    position independent, or has a custom base address, building the
    analysis succeeds on every trace, without any search: the table
    gives slide 0 to each object that is not a pseudo-object and has no
    other entry. *)
Theorem init_without_search project trace :
  (∀ obj, obj ∈ all_objects project →
     String.prefix "cle##" (binary_basename project obj) = true ∨
     pic project obj = false ∨ _custom_base_addr project obj = true) →
  ∃ slides,
    __init__ project trace = Ok slides ∧
    (∀ obj, obj ∈ all_objects project →
       String.prefix "cle##" (binary_basename project obj) = false →
       Dict.get slides (Some obj) = Some 0) ∧
    (∀ key,
       (∀ obj, key = Some obj →
          obj ∉ all_objects project ∨
          String.prefix "cle##" (binary_basename project obj) = true) →
       Dict.get slides key = None).
Proof.
  intros Hall.
  destruct (resolve_objects_fixed project trace (all_objects project) [] Hall)
    as (final & Hfinal & Hzero & Hother).
  exists final. split; [done|]. split; [done|].
  intros key Hkey. by rewrite Hother.
Qed.

(** What holds of every entry of a table that resolution fills. *)
Lemma resolve_objects_entries project trace objs slides final
    (P : Obj → Z → Prop) :
  (∀ obj entry slide,
     obj ∈ objs →
     String.prefix "cle##" (binary_basename project obj) = false →
     pic project obj = true → _custom_base_addr project obj = false →
     entry ∈ entry_addresses project obj →
     candidate_slide project trace entry slide → P obj slide) →
  (∀ obj,
     obj ∈ objs →
     String.prefix "cle##" (binary_basename project obj) = false →
     pic project obj = false ∨ _custom_base_addr project obj = true →
     P obj 0) →
  (∀ key slide, Dict.get slides key = Some slide →
     ∃ obj, key = Some obj ∧ P obj slide) →
  resolve_objects project trace objs slides = Ok final →
  ∀ key slide, Dict.get final key = Some slide →
    ∃ obj, key = Some obj ∧ P obj slide.
Proof.
  revert slides.
  induction objs as [|o objs IH]; intros slides Hsearch Hfixed Hinv; simpl.
  - by intros [= <-].
  - destruct (resolve_object project trace slides o) as [slides'|] eqn:Ho;
      [cbn|done].
    apply IH.
    + intros obj entry slide ?. apply Hsearch. by right.
    + intros obj ?. apply Hfixed. by right.
    + assert (∀ v, P o v →
                ∀ key slide, Dict.get (Dict.set slides (Some o) v) key
                             = Some slide →
                             ∃ obj, key = Some obj ∧ P obj slide) as Hset.
      { intros v Hv key slide.
        destruct (decide (Some o = key)) as [<-|Hne].
        - rewrite dict_get_set_eq. intros [= <-]. by exists o.
        - rewrite dict_get_set_ne by done. apply Hinv. }
      apply resolve_object_cases in Ho
        as [->|(Hname & [[Hfix ->]|(Hpic & Hbase & e & v & He & Hc & ->)])].
      * done.
      * apply Hset. apply Hfixed; [by left|done..].
      * apply Hset. eapply Hsearch; [by left|done..].
Qed.

(** X6. In the table of a completed [__init__] the keys are distinct,
    and every entry belongs to an object of the loader that is not a
    pseudo-object (there is no entry under the no-module key), holds a
    multiple of 4096, holds 0 when the object is not position
    independent or has a custom base address, and otherwise moves one of
    the object's entry addresses onto an address of the trace. *)
Theorem init_table project trace slides :
  __init__ project trace = Ok slides →
  NoDup slides.*1 ∧
  ∀ key slide, Dict.get slides key = Some slide →
    ∃ obj,
      key = Some obj ∧
      obj ∈ all_objects project ∧
      String.prefix "cle##" (binary_basename project obj) = false ∧
      slide mod 4096 = 0 ∧
      (pic project obj = false ∨ _custom_base_addr project obj = true →
       slide = 0) ∧
      (pic project obj = true → _custom_base_addr project obj = false →
       ∃ entry, entry ∈ entry_addresses project obj ∧ entry + slide ∈ trace).
Proof.
  intros Hinit. split; [by eapply init_keys|].
  eapply (resolve_objects_entries project trace (all_objects project) []
            slides
            (λ obj slide,
               obj ∈ all_objects project ∧
               String.prefix "cle##" (binary_basename project obj) = false ∧
               slide mod 4096 = 0 ∧
               (pic project obj = false ∨ _custom_base_addr project obj = true →
                slide = 0) ∧
               (pic project obj = true → _custom_base_addr project obj = false →
                ∃ entry, entry ∈ entry_addresses project obj ∧
                         entry + slide ∈ trace))); [| | |done].
  - intros obj entry slide Hin Hname Hpic Hbase He Hc.
    apply candidate_slide_aligned in Hc as [Hmod Htrace].
    split; [done|]. split; [done|]. split; [done|]. split.
    + intros [?|?]; congruence.
    + intros _ _. by exists entry.
  - intros obj Hin Hname Hfix.
    split; [done|]. split; [done|]. split; [done|]. split; [done|].
    intros ? ?. destruct Hfix; congruence.
  - intros key slide. done.
Qed.

(** *** Translation with the module inferred *)

Lemma dict_get_is_Some slides (key : option Obj) slide :
  (key, slide) ∈ slides → is_Some (Dict.get slides key).
Proof.
  induction slides as [|[k v] slides IH]; simpl; [by intros ?%elem_of_nil|].
  intros [[= -> ->]|Hin]%elem_of_cons.
  - by rewrite decide_True.
  - case_decide; [done|by apply IH].
Qed.

Lemma dict_get_None slides (key : option Obj) :
  Dict.get slides key = None ↔ key ∉ slides.*1.
Proof.
  induction slides as [|[k v] slides IH]; simpl.
  - split; [intros _ []%elem_of_nil|done].
  - case_decide as Hk.
    + split; [done|]. intros []. subst. by left.
    + rewrite IH. rewrite not_elem_of_cons. naive_solver.
Qed.

Lemma find_by_slide_NoOwningModule project slides trace_addr :
  find_by_slide project slides trace_addr = Raise NoOwningModule ↔
  ∀ key slide, (key, slide) ∈ slides →
    ∃ o, key = Some o ∧ contains_addr project o (trace_addr - slide) = false.
Proof.
  induction slides as [|[[o|] slide] slides IH]; simpl.
  - split; [by intros _ ? ? ?%elem_of_nil|done].
  - destruct (contains_addr project o (trace_addr - slide)) eqn:Hc.
    + split; [done|]. intros Hall.
      destruct (Hall (Some o) slide) as (o' & [= <-] & ?); [by left|].
      congruence.
    + rewrite IH. split.
      * intros Hall key s [[= -> ->]|?]%elem_of_cons; [by exists o|].
        by apply Hall.
      * intros Hall key s ?. apply Hall. by right.
  - split; [done|]. intros Hall.
    destruct (Hall None slide) as (o' & [=] & _). by left.
Qed.

Lemma find_by_slide_AttributeError project slides trace_addr :
  find_by_slide project slides trace_addr = Raise AttributeError ↔
  ∃ before slide after,
    slides = before ++ (None, slide) :: after ∧
    ∀ key s, (key, s) ∈ before →
      ∃ o, key = Some o ∧ contains_addr project o (trace_addr - s) = false.
Proof.
  induction slides as [|[[o|] slide] slides IH]; simpl.
  - split; [done|]. intros (before & ? & ? & Heq & _).
    by destruct before.
  - destruct (contains_addr project o (trace_addr - slide)) eqn:Hc.
    + split; [done|]. intros ([|[k v] before] & s & after & Heq & Hall);
        [done|]. injection Heq as <- <- ->.
      destruct (Hall (Some o) slide) as (o' & [= <-] & ?); [by left|].
      congruence.
    + rewrite IH. split.
      * intros (before & s & after & -> & Hall).
        exists ((Some o, slide) :: before), s, after. split; [done|].
        intros key s' [[= -> ->]|?]%elem_of_cons; [by exists o|].
        by apply Hall.
      * intros ([|[k v] before] & s & after & Heq & Hall); [done|].
        injection Heq as <- <- ->. exists before, s, after.
        split; [done|]. intros key s' ?. apply Hall. by right.
  - split; [|done]. intros _. exists [], slide, slides. split; [done|].
    by intros ? ? ?%elem_of_nil.
Qed.

Lemma find_by_slide_Raise project slides trace_addr e :
  find_by_slide project slides trace_addr = Raise e →
  e = NoOwningModule ∨ e = AttributeError.
Proof.
  induction slides as [|[[o|] slide] slides IH]; simpl.
  - intros [= <-]. by left.
  - by destruct (contains_addr project o (trace_addr - slide)).
  - intros [= <-]. by right.
Qed.

(** X7. With the module omitted, [translate_trace_addr] never fails
    with [UnresolvedModule]: it fails with [NoOwningModule] exactly when
    every key of the table is a module that does not contain the address
    less its slide, and otherwise only with [AttributeError], exactly
    when the scan reaches the no-module key before a module that does.
    When it returns and the keys are distinct, the address returned lies
    in a module whose slide is the difference. *)
Theorem translate_trace_addr_inferred project slides (trace_address : Z) :
  (∀ e, translate_trace_addr project slides trace_address None = Raise e →
        e = NoOwningModule ∨ e = AttributeError) ∧
  (translate_trace_addr project slides trace_address None
   = Raise NoOwningModule ↔
   ∀ key slide, (key, slide) ∈ slides →
     ∃ o, key = Some o ∧
          contains_addr project o (trace_address - slide) = false) ∧
  (translate_trace_addr project slides trace_address None
   = Raise AttributeError ↔
   ∃ before slide after,
     slides = before ++ (None, slide) :: after ∧
     ∀ key s, (key, s) ∈ before →
       ∃ o, key = Some o ∧
            contains_addr project o (trace_address - s) = false) ∧
  (NoDup slides.*1 →
   ∀ m, translate_trace_addr project slides trace_address None = Ok m →
        ∃ o, Dict.get slides (Some o) = Some (trace_address - m) ∧
             contains_addr project o m = true).
Proof.
  assert (∀ e, translate_trace_addr project slides trace_address None = Raise e ↔
               find_by_slide project slides trace_address = Raise e) as Hraise.
  { intros e. unfold translate_trace_addr.
    destruct (find_by_slide project slides trace_address) as [key|e'] eqn:Hf;
      cbn; [|split; by intros [= ->]].
    apply find_by_slide_Ok in Hf as (o & slide & -> & Hin & _).
    destruct (dict_get_is_Some _ _ _ Hin) as [v ->]. by split. }
  split; [|split; [|split]].
  - intros e He%Hraise. by eapply find_by_slide_Raise.
  - rewrite Hraise. apply find_by_slide_NoOwningModule.
  - rewrite Hraise. apply find_by_slide_AttributeError.
  - intros Hnd m. unfold translate_trace_addr.
    destruct (find_by_slide project slides trace_address) as [key|] eqn:Hf;
      cbn; [|done].
    apply find_by_slide_Ok in Hf as (o & slide & -> & Hin & Hc).
    rewrite (dict_get_elem_of _ _ _ Hnd Hin). intros [= <-].
    exists o. split; [|done].
    rewrite (dict_get_elem_of _ _ _ Hnd Hin). f_equal. lia.
Qed.

(** *** Comparison and the table *)

Lemma dict_set_absent slides (key : option Obj) slide :
  Dict.get slides key = None →
  Dict.set slides key slide = slides ++ [(key, slide)].
Proof.
  induction slides as [|[k v] slides IH]; simpl; [done|].
  case_decide; [done|]. intros Hget. by rewrite IH.
Qed.

(** The call on an owner that is no pseudo-object, has no entry and is
    at a page-aligned distance. *)
Lemma compare_addr_records project slides trace_addr state_addr :
  let owner := find_object_containing project state_addr in
  owner ≠ _extern_object project →
  owner ≠ _kernel_object project →
  Dict.get slides owner = None →
  (trace_addr - state_addr) mod 4096 = 0 →
  compare_addr project slides trace_addr state_addr =
  (Ok true, slides ++ [(owner, trace_addr - state_addr)]).
Proof.
  intros owner Hext Hker Hget Hmod.
  rewrite compare_addr_owner by done. fold owner. rewrite Hget.
  rewrite (proj2 (page_aligned_mod _) Hmod).
  by rewrite dict_set_absent.
Qed.

Lemma dict_get_app_absent slides (key key' : option Obj) slide :
  Dict.get slides key = None →
  Dict.get (slides ++ [(key, slide)]) key' =
  if decide (key = key') then Some slide else Dict.get slides key'.
Proof.
  intros Hget. rewrite <- dict_set_absent by done.
  case_decide as Hk.
  - subst. apply dict_get_set_eq.
  - by apply dict_get_set_ne.
Qed.

(** X8. A comparison leaves the table as it is or appends one entry to
    it: the entry is appended exactly when the call returns true for an
    owner that had no entry, and is that owner with the difference of
    the two addresses, a multiple of 4096.  So an entry is never
    overwritten, removed or moved. *)
Theorem compare_addr_appends project slides (trace_address model_address : Z) :
  let owner := find_object_containing project model_address in
  let after := (compare_addr project slides trace_address model_address).2 in
  (after = slides ∨
   Dict.get slides owner = None ∧
   (trace_address - model_address) mod 4096 = 0 ∧
   compare_addr project slides trace_address model_address =
   (Ok true, slides ++ [(owner, trace_address - model_address)])) ∧
  (∀ key slide, Dict.get slides key = Some slide →
                Dict.get after key = Some slide).
Proof.
  intros owner after.
  assert (after = slides ∨
          Dict.get slides owner = None ∧
          (trace_address - model_address) mod 4096 = 0 ∧
          compare_addr project slides trace_address model_address =
          (Ok true, slides ++ [(owner, trace_address - model_address)]))
    as Hcases.
  { unfold after, compare_addr. fold owner.
    destruct (_ || _); [by left|].
    destruct (Dict.get slides owner) eqn:Hget; [by left|].
    destruct (page_aligned _) eqn:Ha.
    - right. split; [done|]. split; [by apply page_aligned_mod|].
      by rewrite dict_set_absent.
    - left. by destruct owner. }
  split; [done|]. intros key slide Hkey.
  destruct Hcases as [->|(Hget & _ & Heq)]; [done|].
  unfold after. rewrite Heq. simpl. rewrite dict_get_app_absent by done.
  case_decide; [congruence|done].
Qed.

(** X9. A comparison that returns can be repeated: the same call on the
    table it left returns the same answer and leaves that table as it
    is. *)
Theorem compare_addr_again project slides (trace_address model_address : Z)
    b after :
  compare_addr project slides trace_address model_address = (Ok b, after) →
  compare_addr project after trace_address model_address = (Ok b, after).
Proof.
  unfold compare_addr.
  set (owner := find_object_containing project model_address).
  destruct (_ || _) eqn:Hpseudo.
  { by intros [= <- <-]. }
  destruct (Dict.get slides owner) as [slide|] eqn:Hget.
  { intros [= <- <-]. by rewrite Hget. }
  destruct (page_aligned _); [|by destruct owner].
  intros [= <- <-]. rewrite dict_get_set_eq. do 2 f_equal. lia.
Qed.

(** X10. A comparison raises exactly when the owner of the model address
    is neither the extern nor the kernel object, has no entry in the
    table, and the difference of the two addresses is not a multiple of
    4096; the exception names the owner, or the model address when no
    module owns it, and the table is left as it is. *)
Theorem compare_addr_raises project slides (trace_address model_address : Z) e :
  let owner := find_object_containing project model_address in
  (compare_addr project slides trace_address model_address).1 = Raise e ↔
  owner ≠ _extern_object project ∧
  owner ≠ _kernel_object project ∧
  Dict.get slides owner = None ∧
  (trace_address - model_address) mod 4096 ≠ 0 ∧
  e = match owner with
      | Some o => TraceDesyncModule o
      | None => TraceDesyncUnmapped model_address
      end ∧
  (compare_addr project slides trace_address model_address).2 = slides.
Proof.
  intros owner. unfold compare_addr. fold owner.
  destruct (decide (owner = _extern_object project)) as [Hext|Hext].
  { rewrite bool_decide_eq_true_2 by done. simpl. naive_solver. }
  rewrite (bool_decide_eq_false_2 _ Hext).
  destruct (decide (owner = _kernel_object project)) as [Hker|Hker].
  { rewrite bool_decide_eq_true_2 by done. simpl. naive_solver. }
  rewrite (bool_decide_eq_false_2 _ Hker). simpl.
  destruct (Dict.get slides owner) eqn:Hget; [simpl; naive_solver|].
  destruct (page_aligned _) eqn:Ha.
  - apply page_aligned_mod in Ha. simpl. naive_solver.
  - assert ((trace_address - model_address) mod 4096 ≠ 0) as Hmod.
    { intros ?%page_aligned_mod. congruence. }
    destruct owner; simpl; naive_solver.
Qed.

(** X11. A comparison puts no entry under the extern or the kernel
    object: where they have none before a call they have none after it,
    and for an address one of them owns the call returns false and
    leaves the table as it is. *)
Theorem compare_addr_spares_pseudo project slides
    (trace_address model_address : Z) (pseudo : option Obj) :
  pseudo = _extern_object project ∨ pseudo = _kernel_object project →
  (Dict.get slides pseudo = None →
   Dict.get (compare_addr project slides trace_address model_address).2 pseudo
   = None) ∧
  (find_object_containing project model_address = pseudo →
   compare_addr project slides trace_address model_address
   = (Ok false, slides)).
Proof.
  intros Hpseudo. split.
  - intros Hnone. unfold compare_addr.
    set (owner := find_object_containing project model_address).
    destruct (bool_decide (owner = _extern_object project)) eqn:Hext;
      [done|].
    destruct (bool_decide (owner = _kernel_object project)) eqn:Hker;
      [done|].
    apply bool_decide_eq_false in Hext, Hker. simpl.
    destruct (Dict.get slides owner); [done|].
    destruct (page_aligned _); [|by destruct owner].
    simpl. rewrite dict_get_set_ne; [done|].
    destruct Hpseudo; congruence.
  - intros Hown. apply compare_addr_pseudo. rewrite Hown.
    destruct Hpseudo; auto.
Qed.

(** *** Comparison, then translation *)

(** X12. After a comparison has recorded a slide for a module (one that
    is no pseudo-object, had no entry, at a page-aligned distance), the
    entry is the last of the table, the model address translates to the
    trace address and back, and a later comparison at any address of the
    module returns whether the two addresses are at that same distance,
    recording nothing. *)
Theorem compare_addr_then_translate project slides (obj : Obj)
    (trace_address model_address : Z) :
  find_object_containing project model_address = Some obj →
  Some obj ≠ _extern_object project →
  Some obj ≠ _kernel_object project →
  Dict.get slides (Some obj) = None →
  (trace_address - model_address) mod 4096 = 0 →
  let after := slides ++ [(Some obj, trace_address - model_address)] in
  compare_addr project slides trace_address model_address = (Ok true, after) ∧
  translate_state_addr project after model_address None = Ok trace_address ∧
  translate_trace_addr project after trace_address (Some obj)
  = Ok model_address ∧
  (∀ t s, find_object_containing project s = Some obj →
     compare_addr project after t s =
     (Ok (bool_decide (t - s = trace_address - model_address)), after)).
Proof.
  intros Hown Hext Hker Hget Hmod after.
  assert (Dict.get after (Some obj) = Some (trace_address - model_address))
    as Hafter.
  { unfold after. rewrite dict_get_app_absent by done. by rewrite decide_True. }
  split; [|split; [|split]].
  - pose proof (compare_addr_records project slides trace_address
                  model_address) as Hrec.
    simpl in Hrec. rewrite Hown in Hrec. by apply Hrec.
  - unfold translate_state_addr. rewrite Hown, Hafter. f_equal. lia.
  - unfold translate_trace_addr. cbn. rewrite Hafter. f_equal. lia.
  - intros t s Hs. rewrite compare_addr_owner; rewrite Hs; [|done..].
    rewrite Hafter. do 2 f_equal.
    destruct (t =? s + (trace_address - model_address)) eqn:Heq.
    + apply Z.eqb_eq in Heq. rewrite bool_decide_eq_true_2; [done|lia].
    + apply Z.eqb_neq in Heq. rewrite bool_decide_eq_false_2; [done|lia].
Qed.

(** X13. Once a comparison at an unowned address has put an entry under
    the no-module key, translating a trace address with the module
    omitted raises [AttributeError] whenever no module of the table
    contains the address less its slide, where it raised
    [NoOwningModule] before. *)
Theorem compare_addr_then_infer project slides
    (trace_address model_address foreign : Z) :
  find_object_containing project model_address = None →
  _extern_object project ≠ None →
  _kernel_object project ≠ None →
  (trace_address - model_address) mod 4096 = 0 →
  (∀ key slide, (key, slide) ∈ slides →
     ∃ o, key = Some o ∧ contains_addr project o (foreign - slide) = false) →
  translate_trace_addr project slides foreign None = Raise NoOwningModule ∧
  compare_addr project slides trace_address model_address =
  (Ok true, slides ++ [(None, trace_address - model_address)]) ∧
  translate_trace_addr project
    (compare_addr project slides trace_address model_address).2 foreign None
  = Raise AttributeError.
Proof.
  intros Hown Hext Hker Hmod Hforeign.
  assert (Dict.get slides None = None) as Hget.
  { apply dict_get_None. intros ([k v] & Hk & Hin)%list_elem_of_fmap.
    simpl in Hk. subst k. by destruct (Hforeign _ _ Hin) as (? & ? & _). }
  assert (compare_addr project slides trace_address model_address =
          (Ok true, slides ++ [(None, trace_address - model_address)]))
    as Hcmp.
  { pose proof (compare_addr_records project slides trace_address
                  model_address) as Hrec.
    simpl in Hrec. rewrite Hown in Hrec. by apply Hrec. }
  split; [|split; [done|]].
  - unfold translate_trace_addr.
    by rewrite (proj2 (find_by_slide_NoOwningModule _ _ _) Hforeign).
  - rewrite Hcmp. simpl. unfold translate_trace_addr.
    rewrite (proj2 (find_by_slide_AttributeError _ _ _)); [done|].
    by exists slides, (trace_address - model_address), [].
Qed.

(** X14. A comparison keeps the table well formed: its keys stay
    distinct, and where every slide is a multiple of 4096 before the
    call every slide is one after it. *)
Theorem compare_addr_keeps_table project slides
    (trace_address model_address : Z) :
  NoDup slides.*1 →
  (∀ key slide, Dict.get slides key = Some slide → slide mod 4096 = 0) →
  let after := (compare_addr project slides trace_address model_address).2 in
  NoDup after.*1 ∧
  ∀ key slide, Dict.get after key = Some slide → slide mod 4096 = 0.
Proof.
  intros Hnd Haligned after. split; [by apply compare_addr_keys|].
  unfold after, compare_addr.
  set (owner := find_object_containing project model_address).
  destruct (_ || _); [done|].
  destruct (Dict.get slides owner); [done|].
  destruct (page_aligned _) eqn:Ha; [|by destruct owner].
  simpl. intros key slide.
  destruct (decide (owner = key)) as [<-|Hne].
  - rewrite dict_get_set_eq. intros [= <-]. by apply page_aligned_mod.
  - rewrite dict_get_set_ne by done. apply Haligned.
Qed.

(** X15. With the module omitted on both sides, a table with distinct
    keys and a loader whose lookup agrees with the objects' containment
    test: when a trace address translates to a model address, that
    address lies in a module of the table, the loader finds that module
    for it, and translating it back gives the trace address. *)
Theorem translate_inferred_inverse project slides (a m : Z) :
  NoDup slides.*1 →
  (∀ o x, contains_addr project o x = true →
          find_object_containing project x = Some o) →
  translate_trace_addr project slides a None = Ok m →
  ∃ o,
    contains_addr project o m = true ∧
    find_object_containing project m = Some o ∧
    Dict.get slides (Some o) = Some (a - m) ∧
    translate_state_addr project slides m None = Ok a ∧
    translate_trace_addr project slides a (Some o) = Ok m.
Proof.
  intros Hnd Hloader Hm.
  pose proof (translate_round_trip_inferred _ _ _ _ Hnd Hloader Hm) as Hback.
  unfold translate_trace_addr in Hm.
  destruct (find_by_slide project slides a) as [key|] eqn:Hfind; [|done].
  apply find_by_slide_Ok in Hfind as (o & slide & -> & Hin & Hc).
  cbn in Hm. rewrite (dict_get_elem_of _ _ _ Hnd Hin) in Hm.
  injection Hm as <-. exists o.
  split; [done|]. split; [by apply Hloader|].
  rewrite (dict_get_elem_of _ _ _ Hnd Hin).
  split; [f_equal; lia|]. split; [done|].
  unfold translate_trace_addr. cbn.
  by rewrite (dict_get_elem_of _ _ _ Hnd Hin).
Qed.

End Behaviour.

(** *** The further properties on the small project *)

Lemma locate_entry_point_sound_witness :
  _locate_entry_point demo_project demo_trace 0x601000 = Ok {[2%nat]} ∧
  (2 + 1 < length demo_trace)%nat ∧
  _filter_idx demo_project demo_trace 0x601000 2 = Ok true ∧
  ∃ addr,
    demo_trace !! 2%nat = Some addr ∧
    (addr - 0x601000) mod 4096 = 0 ∧
    (2%nat = 0%nat ∨
     ∃ prev, demo_trace !! (2 - 1)%nat = Some prev ∧
             0x4000 < Z.abs (prev - addr)).
Proof.
  split; [by vm_compute|].
  apply (locate_entry_point_sound demo_project demo_trace 0x601000
           {[2%nat]} 2%nat); [by vm_compute|by apply elem_of_singleton].
Defined.

Lemma locate_entry_point_raises_witness :
  last demo_trace = Some 0x7f0000700004 ∧
  ∃ found, _locate_entry_point demo_project demo_trace 0x601000 = Ok found.
Proof.
  split; [reflexivity|].
  destruct (locate_entry_point_raises demo_project demo_trace 0x601000)
    as [_ Hreturns].
  apply Hreturns. intros addr [= <-]. by vm_compute.
Defined.

Lemma scan_pass_threshold_mono_witness :
  0x4000 ≤ 0x40000 ∧
  scan_pass demo_trace 0x601000 0x40000 ∅ ⊆
  scan_pass demo_trace 0x601000 0x4000 ∅.
Proof.
  split; [by vm_compute|].
  apply (scan_pass_threshold_mono demo_trace 0x601000 0x4000 0x40000).
  by vm_compute.
Defined.

(** A run that never reaches the library. *)
Lemma resolve_object_absent_witness :
  entry_addresses demo_project 1%nat = [0x601000] ∧
  (∀ slides,
     resolve_object demo_project [0x400001; 0x400005] slides 1%nat =
     Raise (AmbiguousOrAbsentTrace 1%nat)) ∧
  (1%nat ∈ all_objects demo_project →
   ∃ e, __init__ demo_project [0x400001; 0x400005] = Raise e).
Proof.
  split; [reflexivity|].
  apply (resolve_object_absent demo_project [0x400001; 0x400005] 1%nat);
    [reflexivity|reflexivity|reflexivity|discriminate|].
  intros entry addr ->%list_elem_of_singleton Haddr.
  apply elem_of_cons in Haddr as [->|Haddr]; [by vm_compute|].
  apply list_elem_of_singleton in Haddr as ->. by vm_compute.
Defined.

Lemma init_without_search_witness :
  ∃ slides,
    __init__ demo_pinned demo_trace = Ok slides ∧
    (∀ obj, obj ∈ all_objects demo_pinned →
       String.prefix "cle##" (binary_basename demo_pinned obj) = false →
       Dict.get slides (Some obj) = Some 0) ∧
    (∀ key,
       (∀ obj, key = Some obj →
          obj ∉ all_objects demo_pinned ∨
          String.prefix "cle##" (binary_basename demo_pinned obj) = true) →
       Dict.get slides key = None).
Proof.
  apply (init_without_search demo_pinned demo_trace).
  intros obj Hin. change (obj ∈ [0; 1; 2; 3]%nat) in Hin.
  repeat (apply elem_of_cons in Hin as [->|Hin]; [by vm_compute; auto|]).
  by apply elem_of_nil in Hin.
Defined.

Lemma init_table_witness :
  __init__ demo_project demo_trace = Ok demo_slides ∧
  NoDup demo_slides.*1 ∧
  ∀ key slide, Dict.get demo_slides key = Some slide →
    ∃ obj,
      key = Some obj ∧
      obj ∈ all_objects demo_project ∧
      String.prefix "cle##" (binary_basename demo_project obj) = false ∧
      slide mod 4096 = 0 ∧
      (pic demo_project obj = false ∨ _custom_base_addr demo_project obj = true →
       slide = 0) ∧
      (pic demo_project obj = true → _custom_base_addr demo_project obj = false →
       ∃ entry, entry ∈ entry_addresses demo_project obj ∧
                entry + slide ∈ demo_trace).
Proof.
  split; [by vm_compute|].
  apply (init_table demo_project demo_trace demo_slides). by vm_compute.
Defined.

Lemma compare_addr_again_witness :
  compare_addr demo_project [] 0x7f0000601000 0x601000 =
  (Ok true, [(Some 1%nat, 0x7f0000000000)]) ∧
  compare_addr demo_project [(Some 1%nat, 0x7f0000000000)]
    0x7f0000601000 0x601000 =
  (Ok true, [(Some 1%nat, 0x7f0000000000)]).
Proof.
  split; [by vm_compute|].
  apply (compare_addr_again demo_project [] 0x7f0000601000 0x601000).
  by vm_compute.
Defined.

(** The extern object owns 0x800010 and the kernel object 0x900020; the
    trace addresses compared with them are at page-aligned distances, so
    that any other owner without an entry would get one. *)
Lemma compare_addr_spares_pseudo_witness :
  find_object_containing demo_externs 0x800010 = _extern_object demo_externs ∧
  find_object_containing demo_externs 0x900020 = _kernel_object demo_externs ∧
  (0x7f0000800010 - 0x800010) mod 4096 = 0 ∧
  (0x7f0000900020 - 0x900020) mod 4096 = 0 ∧
  Dict.get demo_slides (Some 2%nat) = None ∧
  Dict.get demo_slides (Some 3%nat) = None ∧
  Dict.get
    (compare_addr demo_externs demo_slides 0x7f0000800010 0x800010).2
    (Some 2%nat) = None ∧
  compare_addr demo_externs demo_slides 0x7f0000800010 0x800010
  = (Ok false, demo_slides) ∧
  Dict.get
    (compare_addr demo_externs demo_slides 0x7f0000900020 0x900020).2
    (Some 3%nat) = None ∧
  compare_addr demo_externs demo_slides 0x7f0000900020 0x900020
  = (Ok false, demo_slides).
Proof.
  do 6 (split; [reflexivity|]).
  destruct (compare_addr_spares_pseudo demo_externs demo_slides
              0x7f0000800010 0x800010 (Some 2%nat)) as [Hkeep Hfalse];
    [left; reflexivity|].
  destruct (compare_addr_spares_pseudo demo_externs demo_slides
              0x7f0000900020 0x900020 (Some 3%nat)) as [Hkeep' Hfalse'];
    [right; reflexivity|].
  split; [apply Hkeep; reflexivity|].
  split; [apply Hfalse; reflexivity|].
  split; [apply Hkeep'; reflexivity|].
  apply Hfalse'; reflexivity.
Defined.

Lemma compare_addr_then_translate_witness :
  Dict.get (K := option nat) [(Some 0%nat, 0)] (Some 1%nat) = None ∧
  (0x7f0000601000 - 0x601000) mod 4096 = 0 ∧
  compare_addr demo_project [(Some 0%nat, 0)] 0x7f0000601000 0x601000 =
  (Ok true, [(Some 0%nat, 0)] ++ [(Some 1%nat, 0x7f0000601000 - 0x601000)]) ∧
  translate_state_addr demo_project
    ([(Some 0%nat, 0)] ++ [(Some 1%nat, 0x7f0000601000 - 0x601000)])
    0x601000 None = Ok 0x7f0000601000 ∧
  translate_trace_addr demo_project
    ([(Some 0%nat, 0)] ++ [(Some 1%nat, 0x7f0000601000 - 0x601000)])
    0x7f0000601000 (Some 1%nat) = Ok 0x601000 ∧
  (∀ t s, find_object_containing demo_project s = Some 1%nat →
     compare_addr demo_project
       ([(Some 0%nat, 0)] ++ [(Some 1%nat, 0x7f0000601000 - 0x601000)]) t s =
     (Ok (bool_decide (t - s = 0x7f0000601000 - 0x601000)),
      [(Some 0%nat, 0)] ++ [(Some 1%nat, 0x7f0000601000 - 0x601000)])).
Proof.
  split; [reflexivity|]. split; [reflexivity|].
  apply (compare_addr_then_translate demo_project [(Some 0%nat, 0)] 1%nat
           0x7f0000601000 0x601000);
    [reflexivity|discriminate|discriminate|reflexivity|reflexivity].
Defined.

Lemma compare_addr_then_infer_witness :
  find_object_containing demo_project 0x1000 = None ∧
  translate_trace_addr demo_project demo_slides 0x123456 None
  = Raise NoOwningModule ∧
  compare_addr demo_project demo_slides 0x2000 0x1000 =
  (Ok true, demo_slides ++ [(None, 0x2000 - 0x1000)]) ∧
  translate_trace_addr demo_project
    (compare_addr demo_project demo_slides 0x2000 0x1000).2 0x123456 None
  = Raise AttributeError.
Proof.
  split; [reflexivity|].
  apply (compare_addr_then_infer demo_project demo_slides 0x2000 0x1000
           0x123456); [reflexivity|discriminate|discriminate|reflexivity|].
  intros key slide Hin.
  apply elem_of_cons in Hin as [[= -> ->]|Hin]; [by exists 0%nat|].
  apply list_elem_of_singleton in Hin as [= -> ->]. by exists 1%nat.
Defined.

Lemma compare_addr_keeps_table_witness :
  NoDup demo_slides.*1 ∧
  NoDup (compare_addr demo_project demo_slides 0x2000 0x1000).2.*1 ∧
  ∀ key slide,
    Dict.get (compare_addr demo_project demo_slides 0x2000 0x1000).2 key
    = Some slide →
    slide mod 4096 = 0.
Proof.
  assert (NoDup demo_slides.*1) as Hnd.
  { apply NoDup_cons. split; [|apply NoDup_singleton].
    intros [=]%list_elem_of_singleton. }
  split; [done|].
  apply (compare_addr_keeps_table demo_project demo_slides 0x2000 0x1000);
    [done|].
  intros key slide. unfold demo_slides. simpl.
  repeat case_decide; by intros [= <-].
Defined.

Lemma translate_inferred_inverse_witness :
  translate_trace_addr demo_project demo_slides 0x7f0000601234 None
  = Ok 0x601234 ∧
  ∃ o,
    contains_addr demo_project o 0x601234 = true ∧
    find_object_containing demo_project 0x601234 = Some o ∧
    Dict.get demo_slides (Some o) = Some (0x7f0000601234 - 0x601234) ∧
    translate_state_addr demo_project demo_slides 0x601234 None
    = Ok 0x7f0000601234 ∧
    translate_trace_addr demo_project demo_slides 0x7f0000601234 (Some o)
    = Ok 0x601234.
Proof.
  split; [by vm_compute|].
  apply (translate_inferred_inverse demo_project demo_slides
           0x7f0000601234 0x601234).
  - apply NoDup_cons. split; [|apply NoDup_singleton].
    intros [=]%list_elem_of_singleton.
  - intros o x. destruct o as [|[|o]]; simpl; [|
      |discriminate].
    + by intros ->.
    + intros [Hlo%Z.leb_le Hhi%Z.ltb_lt]%andb_true_iff.
      rewrite (proj2 (Z.ltb_ge x 0x500000)) by lia.
      rewrite andb_false_r.
      rewrite (proj2 (Z.leb_le 0x600000 x)) by lia.
      by rewrite (proj2 (Z.ltb_lt x 0x700000)) by lia.
  - by vm_compute.
Defined.

(** ** The round trip with the module inferred *)

Section RoundTrip.
Context {Obj : Type} `{EqDecision Obj}.
Implicit Types (project : Project Obj).
Implicit Types (slides : Dict.t (K := option Obj)).




End RoundTrip.



